(** * keys/wordcodec.go: the base-2048 word codec

    A shallow embedding of the word codec of [keys/wordcodec.go]: a byte
    buffer gets a checksum appended, is read as a big-endian integer and is
    written out in base 2048, one bank word per digit; decoding folds the
    digits back, renders the integer at the expected width and lets the
    checksum decide between the two possible lengths.

    Go's [int] is modelled as [Z] with the 64-bit wrap-around written out,
    [math/big] integers as [Z], byte slices as [list byte], the
    [map[string]int] index as a [gmap string Z].  A Go function returning
    [(value, error)] returns a [result]; a run-time panic is an outcome of
    its own. *)

From Stdlib Require Import ZArith Lia List.
From Stdlib Require Strings.Byte.
From stdpp Require Import base option list gmap strings.

Local Open Scope Z_scope.

(** ** Go's [int] *)

Module GoInt.

Definition int_min : Z := - 2 ^ 63.
Definition int_max : Z := 2 ^ 63 - 1.

(** Two's complement wrap-around of a mathematical result into [int]. *)
Definition wrap (z : Z) : Z := (z + 2 ^ 63) `mod` 2 ^ 64 - 2 ^ 63.

Definition add (a b : Z) : Z := wrap (a + b).
Definition sub (a b : Z) : Z := wrap (a - b).
Definition mul (a b : Z) : Z := wrap (a * b).
(** Go's [/] truncates toward zero. *)
Definition quot (a b : Z) : Z := wrap (a ÷ b).

End GoInt.

(** [len(s)] of a slice. *)
Definition len {A : Type} (s : list A) : Z := Z.of_nat (length s).

(** ** Errors, panics and results *)

Inductive error : Type :=
| InvalidBankSize (expected found : Z)  (* "Bank must have %d words, found %d" *)
| DuplicateWord (w : string)            (* "Duplicate word in list: %s" *)
| UnrecognizedWord (w : string)         (* "Unrecognized word: %s" *)
| ChecksumMismatch (cause : string).    (* the error CheckECC returned *)

Inductive panic : Type :=
| IndexOutOfRange
| SliceBoundsOutOfRange
| MakeLenOutOfRange.

Inductive result (A : Type) : Type :=
| Ok (a : A)
| Err (e : error)
| Panic (p : panic).

Arguments Ok {A} a.
Arguments Err {A} e.
Arguments Panic {A} p.

#[export] Instance result_ret : MRet result := fun _ a => Ok a.
#[export] Instance result_bind : MBind result := fun _ _ f m =>
  match m with
  | Ok a => f a
  | Err e => Err e
  | Panic p => Panic p
  end.

(** ** The checksum capability

    [ECC] is the interface of the [check] field; [CheckECC] returns the
    payload or an error, whose message is all the codec passes on. *)

Inductive checked : Type :=
| Valid (output : list Byte.byte)
| Invalid (err : string).

Record ECC : Type := {
  AddECC : list Byte.byte -> list Byte.byte;
  CheckECC : list Byte.byte -> checked
}.

(** ** [math/big]: [SetBytes] and [Bytes] *)

Definition byte_val (b : Byte.byte) : Z := Z.of_N (Byte.to_N b).

Definition byte_of (z : Z) : Byte.byte :=
  default Byte.x00 (Byte.of_N (Z.to_N (z `mod` 256))).

(** [SetBytes] reads a buffer as a big-endian unsigned integer. *)
Definition SetBytes (buf : list Byte.byte) : Z :=
  fold_left (fun acc b => acc * 256 + byte_val b) buf 0.

(** The [n] low bytes of [z], most significant first. *)
Fixpoint be_bytes (n : nat) (z : Z) : list Byte.byte :=
  match n with
  | O => []
  | S k => be_bytes k (z `div` 256) ++ [byte_of z]
  end.

(** Number of bytes of the shortest representation; zero has none. *)
Definition byte_len (z : Z) : nat :=
  if z <=? 0 then O else Z.to_nat (Z.log2 z `div` 8 + 1).

(** [Bytes] is the big-endian rendering of the absolute value, without
    leading zero bytes. *)
Definition Bytes (z : Z) : list Byte.byte :=
  be_bytes (byte_len (Z.abs z)) (Z.abs z).

(** ** Slices: [make], [s[lo:]] and [copy] *)

Definition make (n : Z) : result (list Byte.byte) :=
  if n <? 0 then Panic MakeLenOutOfRange
  else Ok (replicate (Z.to_nat n) Byte.x00).

(** [s[lo:]] panics unless [0 <= lo <= len(s)]. *)
Definition slice_from {A : Type} (s : list A) (lo : Z) : result (list A) :=
  if (lo <? 0) || (len s <? lo) then Panic SliceBoundsOutOfRange
  else Ok (drop (Z.to_nat lo) s).

(** [copy(dst, src)] overwrites the first [min(len dst, len src)] elements. *)
Definition copy {A : Type} (dst src : list A) : list A :=
  take (length dst) src ++ drop (length src) dst.

(** ** The codec *)

Definition BankSize : Z := 2048.

Record WordCodec : Type := {
  words : list string;
  bytes : option (gmap string Z);  (* [None] is the nil map *)
  check : ECC
}.

(** The constructor of the checksum, [NewIEEECRC32], lives outside this
    file and is taken as a parameter. *)
Definition NewCodec (NewIEEECRC32 : ECC) (wds : list string) : result WordCodec :=
  if negb (len wds =? BankSize)
  then Err (InvalidBankSize BankSize (len wds))
  else Ok {| words := wds; bytes := None; check := NewIEEECRC32 |}.

Definition wordlenFromBytes (numBytes : Z) : Z :=
  GoInt.quot (GoInt.add (GoInt.mul 8 numBytes) 10) 11.

Definition bytelenFromWords (numWords : Z) : Z * bool :=
  let length := GoInt.quot (GoInt.mul 11 numWords) 8 in
  let maybeShorter :=
    if wordlenFromBytes (GoInt.sub length 1) =? numWords then true else false in
  (length, maybeShorter).

(** The [range] loop of [GetIndex]: [i] is the position of the head of
    [ws] in the bank, [b] the map built so far. *)
Fixpoint index_words (ws : list string) (i : Z) (b : gmap string Z)
  : result (gmap string Z) :=
  match ws with
  | [] => Ok b
  | w :: rest =>
      match b !! w with
      | Some _ => Err (DuplicateWord w)
      | None => index_words rest (i + 1) (<[w := i]> b)
      end
  end.

(** [GetIndex] has a value receiver: the map it stores in [c.bytes] is
    stored in its own copy of [c] and is gone when it returns, so only the
    returned pair is modelled. *)
Definition GetIndex (c : WordCodec) (word : string) : result Z :=
  b ← match bytes c with
      | None => index_words (words c) 0 ∅
      | Some b => Ok b
      end;
  match b !! word with
  | None => Err (UnrecognizedWord word)
  | Some rem => Ok rem
  end.

(** The loop of [BytesToWords]; [n] iterations are left, [acc] is the
    slice [words] appended to so far.  [DivMod] is Euclidean, which for
    the divisor 2048 is [div] and [mod]. *)
Fixpoint encode_loop (c : WordCodec) (n : nat) (nData : Z) (acc : list string)
  : result (list string) :=
  match n with
  | O => Ok acc
  | S k =>
      let rem := nData `mod` 2048 in
      match words c !! Z.to_nat rem with
      | None => Panic IndexOutOfRange
      | Some w =>
          _ ← GetIndex c w;
          encode_loop c k (nData `div` 2048) (acc ++ [w])
      end
  end.

Definition BytesToWords (c : WordCodec) (raw : list Byte.byte)
  : result (list string) :=
  let data := AddECC (check c) raw in
  let numWords := wordlenFromBytes (len data) in
  encode_loop c (Z.to_nat numWords) (SetBytes data) [].

(** The first loop of [WordsToBytes]: it visits [words[l-1]], ...,
    [words[0]], that is the reversed sequence [rws]. *)
Fixpoint decode_loop (c : WordCodec) (rws : list string) (nData : Z) : result Z :=
  match rws with
  | [] => Ok nData
  | w :: rest =>
      rem ← GetIndex c w;
      decode_loop c rest (nData * 2048 + rem)
  end.

(** The integer [nData] holds when the first loop is over. *)
Definition words_value (c : WordCodec) (wds : list string) : result Z :=
  decode_loop c (rev wds) 0.

(** [make] followed by [copy(toCheck[outLen-len(dataBytes):], dataBytes)];
    the copy writes through to [toCheck].  Once [make] has returned, both
    operands of the difference are lengths of slices, between 0 and the
    largest [int], so the difference does not wrap. *)
Definition fill_buffer (outLen : Z) (dataBytes : list Byte.byte)
  : result (list Byte.byte) :=
  toCheck ← make outLen;
  let lo := outLen - len dataBytes in
  dst ← slice_from toCheck lo;
  Ok (take (Z.to_nat lo) toCheck ++ copy dst dataBytes).

(** What [WordsToBytes] returns once [CheckECC] has answered. *)
Definition report (r : checked) : result (list Byte.byte) :=
  match r with
  | Valid output => Ok output
  | Invalid err => Err (ChecksumMismatch err)
  end.

Definition verify (k : ECC) (flex : bool) (toCheck : list Byte.byte)
  : result (list Byte.byte) :=
  match CheckECC k toCheck with
  | Valid output => Ok output
  | Invalid err =>
      if flex then
        toCheck' ← slice_from toCheck 1;
        report (CheckECC k toCheck')
      else Err (ChecksumMismatch err)
  end.

Definition WordsToBytes (c : WordCodec) (wds : list string)
  : result (list Byte.byte) :=
  nData ← words_value c wds;
  let dataBytes := Bytes nData in
  let '(outLen, flex) := bytelenFromWords (len wds) in
  toCheck ← fill_buffer outLen dataBytes;
  verify (check c) flex toCheck.

(** ** Concrete instances used to run the codec *)

Module Sample.

(** A bank of 2048 distinct three-letter words over [a]..[p]: the word
    at position [i] spells [i] in base 16. *)
Definition letter (d : nat) : Ascii.ascii := Ascii.ascii_of_nat (97 + d).

Definition word_at (i : nat) : string :=
  String (letter (i / 256))
    (String (letter (i / 16 mod 16)) (String (letter (i mod 16)) EmptyString)).

Definition bank : list string := map word_at (seq 0 2048).

Definition sum_bytes (buf : list Byte.byte) : Z :=
  fold_right (fun b acc => byte_val b + acc) 0 buf.

(** Split a buffer into all but its last byte, and its last byte. *)
Definition split_last (buf : list Byte.byte) : option (list Byte.byte * Byte.byte) :=
  match rev buf with
  | [] => None
  | code :: rdata => Some (rev rdata, code)
  end.

Definition check_with (code_of : list Byte.byte -> Byte.byte) (buf : list Byte.byte)
  : checked :=
  match split_last buf with
  | None => Invalid "input too short, no checksum present"
  | Some (data, code) =>
      if Byte.eqb (code_of data) code then Valid data
      else Invalid "Checksum does not match"
  end.

(** A one-byte checksum: the sum of the payload bytes modulo 256. *)
Definition sum_code (data : list Byte.byte) : Byte.byte := byte_of (sum_bytes data).

Definition sum_ecc : ECC :=
  {| AddECC := fun data => data ++ [sum_code data];
     CheckECC := check_with sum_code |}.

(** A one-byte checksum that also counts the payload's length. *)
Definition lensum_code (data : list Byte.byte) : Byte.byte :=
  byte_of (len data + sum_bytes data).

Definition lensum_ecc : ECC :=
  {| AddECC := fun data => data ++ [lensum_code data];
     CheckECC := check_with lensum_code |}.

Definition codec (k : ECC) : WordCodec :=
  {| words := bank; bytes := None; check := k |}.

End Sample.

(** ** Reference notions the statements compare the code with *)

(** The least integer not below [a / b], for [b > 0]. *)
Definition ceil_div (a b : Z) : Z := - ((- a) `div` b).

(** The digit of weight [2048 ^ i] of [z]. *)
Definition digit (z : Z) (i : nat) : Z := (z `div` 2048 ^ Z.of_nat i) `mod` 2048.

(** Folding a digit sequence from its last digit to its first with
    [accumulator * 2048 + digit]. *)
Definition fold_digits (ds : list Z) : Z :=
  fold_right (fun d acc => acc * 2048 + d) 0 ds.

(** [w] stands at two positions of [ws]. *)
Definition occurs_twice (w : string) (ws : list string) : Prop :=
  ∃ i j : nat, (i < j)%nat ∧ ws !! i = Some w ∧ ws !! j = Some w.

(** [w] is the first word of [ws], in order, that an earlier position
    already holds. *)
Definition first_repeated (w : string) (ws : list string) : Prop :=
  ∃ j : nat, ws !! j = Some w ∧ w ∈ take j ws ∧ NoDup (take j ws).

(** The contract of the checksum interface: checking what was appended to
    gives the payload back, and the appended code has a fixed width. *)
Definition ecc_contract (k : ECC) : Prop :=
  ∃ width : Z, ∀ x : list Byte.byte,
    CheckECC k (AddECC k x) = Valid x ∧ len (AddECC k x) = len x + width.

(** ** Loading a bank: [getData], [loadBank], [LoadCodec] *)

(** The value or the error of a call that reads the file system; an
    error is kept as its message. *)
Inductive io (A : Type) : Type :=
| Done (a : A)
| Failed (err : string).

Arguments Done {A} a.
Arguments Failed {A} err.

(** What [getData] asks of the operating system: [os.Open] on a file
    name gives a file or an error, [ioutil.ReadAll] on a file gives its
    contents or an error. *)
Record OS (File : Type) : Type := {
  os_Open : string -> io File;
  ioutil_ReadAll : File -> io string
}.

Arguments os_Open {File} _ _.
Arguments ioutil_ReadAll {File} _ _.

(** [errors.WithStack] keeps the message; the deferred [f.Close()] does
    not change what is returned. *)
Definition getData {File : Type} (os : OS File) (filename : string) : io string :=
  match os_Open os filename with
  | Failed err => Failed err
  | Done f =>
      match ioutil_ReadAll os f with
      | Failed err => Failed err
      | Done data => Done data
      end
  end.

(** The bytes [strings.TrimSpace] treats as white space below
    [utf8.RuneSelf]: tab, line feed, vertical tab, form feed, carriage
    return and space. *)
Definition asciiSpace (c : Ascii.ascii) : bool :=
  match Ascii.nat_of_ascii c with
  | 9%nat | 10%nat | 11%nat | 12%nat | 13%nat | 32%nat => true
  | _ => false
  end.

Definition non_ascii (c : Ascii.ascii) : bool := (128 <=? Ascii.nat_of_ascii c)%nat.

Fixpoint trim_left (s : string) : string :=
  match s with
  | EmptyString => EmptyString
  | String c rest => if asciiSpace c then trim_left rest else s
  end.

Fixpoint trim_right (s : string) : string :=
  match s with
  | EmptyString => EmptyString
  | String c rest =>
      match trim_right rest with
      | EmptyString => if asciiSpace c then EmptyString else String c EmptyString
      | t => String c t
      end
  end.

Definition first_byte (s : string) : option Ascii.ascii :=
  match s with
  | EmptyString => None
  | String c _ => Some c
  end.

Fixpoint last_byte (s : string) : option Ascii.ascii :=
  match s with
  | EmptyString => None
  | String c EmptyString => Some c
  | String _ rest => last_byte rest
  end.

(** [strings.TrimSpace]: leading and trailing white space is removed.
    The scan from either end stops at the first byte that is not an
    ASCII white space; when that byte is not ASCII, Go trims by Unicode
    white space instead, which is left to the parameter. *)
Definition TrimSpace (unicode_trim : string -> string) (s : string) : string :=
  let body := trim_right (trim_left s) in
  if from_option non_ascii false (first_byte body)
     || from_option non_ascii false (last_byte body)
  then unicode_trim s
  else body.

(** [strings.Split(s, sep)] for a separator of one byte: the pieces of
    [s] between the separators, one more than there are separators. *)
Fixpoint Split (s : string) (sep : Ascii.ascii) : list string :=
  match s with
  | EmptyString => [EmptyString]
  | String c rest =>
      if Ascii.eqb c sep then EmptyString :: Split rest sep
      else match Split rest sep with
           | piece :: more => String c piece :: more
           | [] => [String c EmptyString]
           end
  end.

Definition newline : Ascii.ascii := Ascii.ascii_of_nat 10.

Definition loadBank {File : Type} (os : OS File) (unicode_trim : string -> string)
    (bank : string) : io (list string) :=
  let filename := ("wordlist/" +:+ bank +:+ ".txt")%string in
  match getData os filename with
  | Failed err => Failed err
  | Done words => Done (Split (TrimSpace unicode_trim words) newline)
  end.

(** [LoadCodec] returns the error of [loadBank], or what [NewCodec]
    returns on the words read. *)
Definition LoadCodec {File : Type} (os : OS File) (unicode_trim : string -> string)
    (NewIEEECRC32 : ECC) (bank : string) : io (result WordCodec) :=
  match loadBank os unicode_trim bank with
  | Failed err => Failed err
  | Done wds => Done (NewCodec NewIEEECRC32 wds)
  end.

(** White space only. *)
Fixpoint all_space (s : string) : bool :=
  match s with
  | EmptyString => true
  | String c rest => asciiSpace c && all_space rest
  end.

(** A byte below [utf8.RuneSelf] that is not white space. *)
Definition plain (c : Ascii.ascii) : bool := negb (asciiSpace c) && negb (non_ascii c).

Fixpoint has_byte (sep : Ascii.ascii) (s : string) : bool :=
  match s with
  | EmptyString => false
  | String c rest => Ascii.eqb c sep || has_byte sep rest
  end.

(** A word that starts and ends with a plain byte and holds no line
    feed. *)
Definition solid (w : string) : bool :=
  from_option plain false (first_byte w)
  && from_option plain false (last_byte w)
  && negb (has_byte newline w).

Definition carriage_return : Ascii.ascii := Ascii.ascii_of_nat 13.

(** A file system holding one file. *)
Definition one_file (name data : string) : OS unit :=
  {| os_Open := fun filename =>
       if String.eqb filename name then Done tt
       else Failed "open: no such file or directory";
     ioutil_ReadAll := fun _ => Done data |}.

(** One step of a computation in [result]. *)
Ltac result_step := cbn [mbind result_bind mret result_ret].

(** * The definitions on small inputs *)

Example wordlenFromBytes_values :
  map wordlenFromBytes [-1; 0; 1; 2; 3; 4; 20] = [0; 0; 1; 2; 3; 3; 15].
Proof. reflexivity. Qed.

Example bytelenFromWords_values :
  map bytelenFromWords [0; 1; 2; 3; 15]
  = [(0, true); (1, false); (2, false); (4, true); (20, false)].
Proof. reflexivity. Qed.

Example SetBytes_Bytes_values :
  SetBytes [Byte.x00; Byte.x01; Byte.x00] = 256
  ∧ Bytes 256 = [Byte.x01; Byte.x00]
  ∧ Bytes 0 = [].
Proof. repeat split; reflexivity. Qed.

Example fill_buffer_values :
  fill_buffer 4 (Bytes 66051) = Ok [Byte.x00; Byte.x01; Byte.x02; Byte.x03]
  ∧ fill_buffer 1 (Bytes 256) = Panic SliceBoundsOutOfRange.
Proof. split; reflexivity. Qed.

Example word_at_values :
  map Sample.word_at [0; 32; 256; 515; 2047]%nat
  = ["aaa"; "aca"; "baa"; "cad"; "hpp"]%string.
Proof. reflexivity. Qed.

(** * Go's [int] inside its range *)

Section IntRange.

Import GoInt.

Lemma wrap_small (z : Z) : int_min <= z <= int_max -> wrap z = z.
Proof.
  unfold int_min, int_max, wrap. intros Hz.
  rewrite Z.mod_small; lia.
Qed.

Lemma wordlenFromBytes_in_range (n : Z) :
  -1 <= n -> 8 * n + 10 <= int_max ->
  wordlenFromBytes n = (8 * n + 10) `div` 11.
Proof.
  intros Hlo Hhi. unfold int_max in Hhi.
  unfold wordlenFromBytes, quot, add, mul.
  rewrite (wrap_small (8 * n)) by (unfold int_min, int_max; lia).
  rewrite (wrap_small (8 * n + 10)) by (unfold int_min, int_max; lia).
  rewrite Z.quot_div_nonneg by lia.
  apply wrap_small. unfold int_min, int_max.
  pose proof (Z.div_pos (8 * n + 10) 11).
  pose proof (Z.div_le_upper_bound (8 * n + 10) 11 (8 * n + 10)).
  lia.
Qed.

Lemma bytelenFromWords_in_range (w : Z) :
  0 <= w -> 11 * w <= int_max ->
  bytelenFromWords w =
    ((11 * w) `div` 8,
     bool_decide (wordlenFromBytes ((11 * w) `div` 8 - 1) = w)).
Proof.
  intros Hlo Hhi. unfold int_max in Hhi.
  assert (Hlen : quot (mul 11 w) 8 = (11 * w) `div` 8).
  { unfold quot, mul.
    rewrite (wrap_small (11 * w)) by (unfold int_min, int_max; lia).
    rewrite Z.quot_div_nonneg by lia.
    apply wrap_small. unfold int_min, int_max.
    pose proof (Z.div_pos (11 * w) 8).
    pose proof (Z.div_le_upper_bound (11 * w) 8 (11 * w)).
    lia. }
  unfold bytelenFromWords. rewrite Hlen. f_equal.
  assert (Hsub : sub ((11 * w) `div` 8) 1 = (11 * w) `div` 8 - 1).
  { unfold sub. apply wrap_small. unfold int_min, int_max.
    pose proof (Z.div_pos (11 * w) 8).
    pose proof (Z.div_le_upper_bound (11 * w) 8 (11 * w)).
    lia. }
  rewrite Hsub.
  destruct (Z.eqb_spec (wordlenFromBytes ((11 * w) `div` 8 - 1)) w) as [Heq | Hne].
  - by rewrite bool_decide_eq_true_2.
  - by rewrite bool_decide_eq_false_2.
Qed.

Lemma ceil_div_11 (a : Z) : ceil_div a 11 = (a + 10) `div` 11.
Proof.
  unfold ceil_div.
  pose proof (Z.div_mod (- a) 11) as H1.
  pose proof (Z.mod_pos_bound (- a) 11) as H2.
  apply Z.div_unique with (r := a + 10 + 11 * ((- a) `div` 11)); lia.
Qed.

End IntRange.

(** * The two length formulas *)

(** C2: within the range of [int], [wordlenFromBytes n] is the ceiling of
    [8n/11], the least [k] with [8n <= 11k]; [bytelenFromWords w] has
    length the floor of [11w/8], and its flag is set exactly when
    [wordlenFromBytes] of one byte less is [w]. *)
Theorem word_count_formula (n w : Z) :
  0 <= n -> 8 * n + 10 <= GoInt.int_max ->
  0 <= w -> 11 * w <= GoInt.int_max ->
  wordlenFromBytes n = ceil_div (8 * n) 11
  ∧ 11 * (wordlenFromBytes n - 1) < 8 * n <= 11 * wordlenFromBytes n
  ∧ (bytelenFromWords w).1 = (11 * w) `div` 8
  ∧ ((bytelenFromWords w).2 = true
     ↔ wordlenFromBytes ((11 * w) `div` 8 - 1) = w).
Proof.
  intros Hn Hn' Hw Hw'. split; [| split; [| split]].
  - rewrite wordlenFromBytes_in_range by lia. by rewrite ceil_div_11.
  - rewrite wordlenFromBytes_in_range by lia.
    pose proof (Z.div_mod (8 * n + 10) 11) as H1.
    pose proof (Z.mod_pos_bound (8 * n + 10) 11) as H2. lia.
  - by rewrite bytelenFromWords_in_range.
  - rewrite bytelenFromWords_in_range by done. cbn [fst snd].
    apply bool_decide_eq_true.
Qed.

Lemma word_count_formula_20_15 :
  (0 <= 20 ∧ 8 * 20 + 10 <= GoInt.int_max ∧ 0 <= 15 ∧ 11 * 15 <= GoInt.int_max)
  ∧ wordlenFromBytes 20 = ceil_div (8 * 20) 11
  ∧ 11 * (wordlenFromBytes 20 - 1) < 8 * 20 <= 11 * wordlenFromBytes 20
  ∧ (bytelenFromWords 15).1 = (11 * 15) `div` 8
  ∧ ((bytelenFromWords 15).2 = true
     ↔ wordlenFromBytes ((11 * 15) `div` 8 - 1) = 15).
Proof.
  split.
  - unfold GoInt.int_max. lia.
  - apply (word_count_formula 20 15); unfold GoInt.int_max; lia.
Defined.

(** The length computed from the word count of an [n]-byte buffer. *)
Lemma candidate_length_cases (n : Z) :
  0 <= n -> 8 * n + 10 <= GoInt.int_max ->
  0 <= wordlenFromBytes n
  ∧ 8 * n <= 11 * wordlenFromBytes n <= 8 * n + 10
  ∧ ((bytelenFromWords (wordlenFromBytes n)).1 = n
     ∨ bytelenFromWords (wordlenFromBytes n) = (n + 1, true)).
Proof.
  intros Hn Hmax.
  rewrite wordlenFromBytes_in_range by lia.
  set (w := (8 * n + 10) `div` 11).
  assert (Hw : 11 * w <= 8 * n + 10 < 11 * w + 11).
  { pose proof (Z.div_mod (8 * n + 10) 11) as H1.
    pose proof (Z.mod_pos_bound (8 * n + 10) 11) as H2. subst w. lia. }
  split; [lia |]. split; [lia |].
  rewrite bytelenFromWords_in_range by lia. cbn [fst snd].
  set (L := (11 * w) `div` 8).
  assert (HL : 8 * L <= 11 * w < 8 * L + 8).
  { pose proof (Z.div_mod (11 * w) 8) as H1.
    pose proof (Z.mod_pos_bound (11 * w) 8) as H2. subst L. lia. }
  destruct (decide (L = n)) as [-> | Hne]; [by left | right].
  assert (L = n + 1) as -> by lia.
  f_equal. apply bool_decide_eq_true.
  replace (n + 1 - 1) with n by lia.
  by rewrite wordlenFromBytes_in_range by lia.
Qed.

(** C10: for a buffer of [n >= 1] bytes, the length the decoder computes
    from the word count is [n], or it is [n + 1] with the flag set. *)
Theorem length_hypotheses_cover (n : Z) :
  1 <= n -> 8 * n + 10 <= GoInt.int_max ->
  let w := wordlenFromBytes n in
  let L := (bytelenFromWords w).1 in
  let flex := (bytelenFromWords w).2 in
  L = n ∨ (L = n + 1 ∧ flex = true).
Proof.
  intros Hn Hmax w L flex. subst L flex w.
  destruct (candidate_length_cases n) as (_ & _ & [Hsame | Hlonger]); [lia | done | |].
  - by left.
  - right. by rewrite Hlonger.
Qed.

Lemma length_hypotheses_cover_3 :
  (1 <= 3 ∧ 8 * 3 + 10 <= GoInt.int_max)
  ∧ ((bytelenFromWords (wordlenFromBytes 3)).1 = 3
     ∨ ((bytelenFromWords (wordlenFromBytes 3)).1 = 3 + 1
        ∧ (bytelenFromWords (wordlenFromBytes 3)).2 = true)).
Proof.
  split.
  - unfold GoInt.int_max. lia.
  - apply (length_hypotheses_cover 3); unfold GoInt.int_max; lia.
Defined.

(** * The reverse index *)

Section Index.

Implicit Types (ws seen : list string) (b : gmap string Z) (i : Z).

(** On a bank without repetition the loop ends with every word mapped to
    its position, and leaves the other keys alone. *)
Lemma index_words_nodup ws : ∀ i b,
  NoDup ws -> (∀ w, w ∈ ws -> b !! w = None) ->
  ∃ b', index_words ws i b = Ok b'
        ∧ (∀ w, w ∉ ws -> b' !! w = b !! w)
        ∧ (∀ (j : nat) w, ws !! j = Some w -> b' !! w = Some (i + Z.of_nat j)).
Proof.
  induction ws as [| w0 rest IH]; intros i b Hnd Hfresh.
  - exists b. split; [done |]. split; [done |]. intros j w Hj. done.
  - apply NoDup_cons in Hnd as [Hnotin Hnd]. simpl.
    rewrite (Hfresh w0) by apply list_elem_of_here.
    destruct (IH (i + 1) (<[w0:=i]> b) Hnd) as (b' & Hrun & Hout & Hin).
    { intros w Hw. rewrite lookup_insert_ne.
      - apply Hfresh. by apply list_elem_of_further.
      - intros ->. contradiction. }
    exists b'. split; [done |]. split.
    + intros w Hw. rewrite Hout.
      * apply lookup_insert_ne. intros ->. apply Hw, list_elem_of_here.
      * intros Hw'. apply Hw. by apply list_elem_of_further.
    + intros [| j] w Hj; simpl in Hj.
      * injection Hj as <-. rewrite Hout by done.
        rewrite lookup_insert_eq. f_equal. lia.
      * rewrite (Hin j w Hj). f_equal. lia.
Qed.

(** With a repetition the loop stops at the first word met again. *)
Lemma index_words_dup ws : ∀ seen i b,
  (∀ w, is_Some (b !! w) ↔ w ∈ seen) ->
  NoDup seen -> ¬ NoDup (seen ++ ws) ->
  ∃ w, index_words ws i b = Err (DuplicateWord w)
       ∧ first_repeated w (seen ++ ws).
Proof.
  induction ws as [| w0 rest IH]; intros seen i b Hdom Hseen Hdup.
  - rewrite app_nil_r in Hdup. contradiction.
  - simpl. destruct (b !! w0) as [r |] eqn:Hw0.
    + exists w0. split; [done |].
      assert (Hin : w0 ∈ seen) by (apply Hdom; eauto).
      exists (length seen). rewrite take_app_length.
      split; [by rewrite list_lookup_middle | done].
    + assert (Hnotin : w0 ∉ seen).
      { intros Hin. apply Hdom in Hin as [r Hr]. congruence. }
      destruct (IH (seen ++ [w0]) (i + 1) (<[w0:=i]> b)) as (w & Hrun & Htwice).
      * intros w. rewrite lookup_insert_is_Some, Hdom, elem_of_app, list_elem_of_singleton.
        destruct (decide (w0 = w)) as [-> | Hne]; [tauto |].
        split; [intros [H | [_ H]]; [done | by left] | intros [H | H]; [by right | by subst]].
      * apply NoDup_app. split; [done |]. split.
        -- intros x Hx Hx'. apply list_elem_of_singleton in Hx'. by subst.
        -- apply NoDup_singleton.
      * by rewrite <- app_assoc.
      * exists w. split; [done |]. by rewrite <- app_assoc in Htwice.
Qed.

Variable c : WordCodec.
Hypothesis Hnil : bytes c = None.

Lemma GetIndex_bank_word (j : nat) (w : string) :
  NoDup (words c) -> words c !! j = Some w -> GetIndex c w = Ok (Z.of_nat j).
Proof.
  intros Hnd Hj. unfold GetIndex. rewrite Hnil.
  destruct (index_words_nodup (words c) 0 ∅ Hnd) as (b' & -> & _ & Hin).
  { intros w' _. apply lookup_empty. }
  simpl. by rewrite (Hin j w Hj).
Qed.

Lemma GetIndex_absent (w : string) :
  NoDup (words c) -> w ∉ words c -> GetIndex c w = Err (UnrecognizedWord w).
Proof.
  intros Hnd Hw. unfold GetIndex. rewrite Hnil.
  destruct (index_words_nodup (words c) 0 ∅ Hnd) as (b' & -> & Hout & _).
  { intros w' _. apply lookup_empty. }
  simpl. by rewrite (Hout w Hw), lookup_empty.
Qed.

Lemma GetIndex_duplicate :
  ¬ NoDup (words c) ->
  ∃ w, first_repeated w (words c) ∧ ∀ word, GetIndex c word = Err (DuplicateWord w).
Proof.
  intros Hdup.
  destruct (index_words_dup (words c) [] 0 ∅) as (w & Hrun & Htwice).
  - intros w. rewrite lookup_empty, elem_of_nil. split; [by intros [? ?] | done].
  - apply NoDup_nil_2.
  - done.
  - exists w. split; [done |]. intros word. unfold GetIndex.
    rewrite Hnil. simpl in Hrun. by rewrite Hrun.
Qed.

End Index.

(** * Construction *)

Lemma NewCodec_Ok_inv (k : ECC) (wds : list string) (c : WordCodec) :
  NewCodec k wds = Ok c ->
  len wds = BankSize ∧ words c = wds ∧ bytes c = None ∧ check c = k.
Proof.
  unfold NewCodec. destruct (Z.eqb_spec (len wds) BankSize) as [Heq | Hne]; simpl.
  - intros [= <-]. done.
  - discriminate.
Qed.

Lemma letter_inj (a b : nat) :
  (a < 16)%nat -> (b < 16)%nat -> Sample.letter a = Sample.letter b -> a = b.
Proof.
  intros Ha Hb Heq. apply (f_equal Ascii.nat_of_ascii) in Heq.
  unfold Sample.letter in Heq.
  rewrite !Ascii.nat_ascii_embedding in Heq by lia. lia.
Qed.

Lemma word_at_inj (i j : nat) :
  (i < 2048)%nat -> (j < 2048)%nat -> Sample.word_at i = Sample.word_at j -> i = j.
Proof.
  intros Hi Hj Heq. unfold Sample.word_at in Heq.
  remember (i / 256)%nat as i2 eqn:Hi2. remember (j / 256)%nat as j2 eqn:Hj2.
  remember (i / 16 mod 16)%nat as i1 eqn:Hi1.
  remember (j / 16 mod 16)%nat as j1 eqn:Hj1.
  remember (i mod 16)%nat as i0 eqn:Hi0. remember (j mod 16)%nat as j0 eqn:Hj0.
  injection Heq as H1 H2 H3. subst i2 j2 i1 j1 i0 j0.
  pose proof (Nat.div_mod_eq i 256). pose proof (Nat.div_mod_eq j 256).
  pose proof (Nat.div_mod_eq i 16). pose proof (Nat.div_mod_eq j 16).
  pose proof (Nat.div_mod_eq (i / 16) 16). pose proof (Nat.div_mod_eq (j / 16) 16).
  pose proof (Nat.mod_upper_bound i 256). pose proof (Nat.mod_upper_bound j 256).
  pose proof (Nat.mod_upper_bound i 16). pose proof (Nat.mod_upper_bound j 16).
  pose proof (Nat.mod_upper_bound (i / 16) 16).
  pose proof (Nat.mod_upper_bound (j / 16) 16).
  apply letter_inj in H1; [| apply Nat.Div0.div_lt_upper_bound; lia ..].
  apply letter_inj in H2; [| lia ..].
  apply letter_inj in H3; [| lia ..].
  lia.
Qed.

Lemma sample_bank_NoDup : NoDup Sample.bank.
Proof.
  unfold Sample.bank.
  change (map Sample.word_at (seq 0 2048)) with (Sample.word_at <$> seq 0 2048).
  apply NoDup_fmap_2_strong; [| apply NoDup_seq].
  intros i j Hi Hj. apply elem_of_seq in Hi, Hj.
  apply word_at_inj; lia.
Qed.

Lemma sample_bank_lookup (i : nat) :
  (i < 2048)%nat -> Sample.bank !! i = Some (Sample.word_at i).
Proof.
  intros Hi. unfold Sample.bank.
  change (map Sample.word_at (seq 0 2048)) with (Sample.word_at <$> seq 0 2048).
  by rewrite list_lookup_fmap, lookup_seq_lt.
Qed.


Lemma sample_codec_built (k : ECC) : NewCodec k Sample.bank = Ok (Sample.codec k).
Proof. reflexivity. Qed.

(** C3: [NewCodec] fails with the bank-size error whenever the bank does
    not have exactly 2048 entries, and accepts a bank of exactly 2048
    entries without duplicates. *)
Theorem NewCodec_bank_size (k : ECC) (wds : list string) :
  (len wds ≠ BankSize ->
   NewCodec k wds = Err (InvalidBankSize BankSize (len wds)))
  ∧ (len wds = BankSize -> NoDup wds ->
     NewCodec k wds = Ok {| words := wds; bytes := None; check := k |}).
Proof.
  unfold NewCodec. split.
  - intros Hne. by destruct (Z.eqb_spec (len wds) BankSize).
  - intros Heq _. by destruct (Z.eqb_spec (len wds) BankSize).
Qed.

Lemma NewCodec_bank_size_sample :
  (len ["zoo"%string] ≠ BankSize
   ∧ NewCodec Sample.sum_ecc ["zoo"%string] = Err (InvalidBankSize BankSize 1))
  ∧ (len Sample.bank = BankSize ∧ NoDup Sample.bank
     ∧ NewCodec Sample.sum_ecc Sample.bank = Ok (Sample.codec Sample.sum_ecc)).
Proof.
  split.
  - split; [done |].
    apply (proj1 (NewCodec_bank_size Sample.sum_ecc ["zoo"%string])). done.
  - split; [reflexivity |]. split; [apply sample_bank_NoDup |].
    apply (proj2 (NewCodec_bank_size Sample.sum_ecc Sample.bank)).
    + reflexivity.
    + apply sample_bank_NoDup.
Defined.

Lemma first_repeated_occurs_twice (w : string) (ws : list string) :
  first_repeated w ws -> occurs_twice w ws.
Proof.
  intros (j & Hj & Hin & _).
  apply list_elem_of_lookup in Hin as [i Hi].
  apply lookup_take_Some in Hi as [Hi Hlt].
  exists i, j. done.
Qed.

Lemma occurs_twice_not_NoDup (w : string) (ws : list string) :
  occurs_twice w ws -> ¬ NoDup ws.
Proof.
  intros (i & j & Hij & Hi & Hj) Hnd.
  pose proof (NoDup_lookup ws i j w Hnd Hi Hj). lia.
Qed.

Lemma decode_loop_first_error (c : WordCodec) (ws : list string) (e : error) :
  (∀ word, GetIndex c word = Err e) -> ws ≠ [] -> words_value c ws = Err e.
Proof.
  intros Hfail Hne. unfold words_value.
  destruct (rev ws) as [| w rest] eqn:Hrev.
  - apply (f_equal (@rev string)) in Hrev. rewrite rev_involutive in Hrev. done.
  - simpl. by rewrite Hfail.
Qed.

(** C4, as the code has it: the constructor accepts a bank of 2048 words
    in which a word is repeated. *)
Lemma NewCodec_accepts_repeated_word :
  occurs_twice "zoo" (replicate 2048 "zoo"%string)
  ∧ NewCodec Sample.sum_ecc (replicate 2048 "zoo"%string)
    = Ok {| words := replicate 2048 "zoo"%string; bytes := None;
            check := Sample.sum_ecc |}.
Proof.
  split.
  - exists 0%nat, 1%nat. split; [lia |]. split; reflexivity.
  - reflexivity.
Qed.

(** C4, amended: for a bank of 2048 words with a repeated word the
    constructor succeeds, and the repetition is found at the first use:
    every call of [GetIndex] on the codec fails with the duplicate-word
    error naming a word that stands twice in the bank, the first one in
    bank order that an earlier position holds, and so does decoding any
    non-empty sequence and encoding whenever a word is to be emitted. *)
Theorem duplicate_found_on_first_use (k : ECC) (wds : list string) (w0 : string) :
  len wds = BankSize -> occurs_twice w0 wds ->
  ∃ c w,
    NewCodec k wds = Ok c
    ∧ occurs_twice w wds ∧ first_repeated w wds
    ∧ (∀ word, GetIndex c word = Err (DuplicateWord w))
    ∧ (∀ ws, ws ≠ [] -> WordsToBytes c ws = Err (DuplicateWord w))
    ∧ (∀ raw, 0 < wordlenFromBytes (len (AddECC k raw)) ->
              BytesToWords c raw = Err (DuplicateWord w)).
Proof.
  intros Hlen Htwice.
  set (c := {| words := wds; bytes := None; check := k |}) in *.
  assert (Hok : NewCodec k wds = Ok c).
  { unfold NewCodec. by destruct (Z.eqb_spec (len wds) BankSize). }
  destruct (GetIndex_duplicate c eq_refl (occurs_twice_not_NoDup _ _ Htwice))
    as (w & Hw & Hget).
  exists c, w. split; [done |].
  split; [by apply first_repeated_occurs_twice |].
  split; [done |]. split; [done |]. split.
  - intros ws Hne. unfold WordsToBytes.
    by rewrite (decode_loop_first_error c ws _ Hget Hne).
  - intros raw Hpos. unfold BytesToWords. simpl.
    destruct (Z.to_nat (wordlenFromBytes (len (AddECC k raw)))) as [| n] eqn:Hn; [lia |].
    simpl.
    destruct (lookup_lt_is_Some_2 wds
                (Z.to_nat (SetBytes (AddECC k raw) `mod` 2048))) as [w' Hw'].
    { pose proof (Z.mod_pos_bound (SetBytes (AddECC k raw)) 2048).
      unfold len, BankSize in Hlen. lia. }
    rewrite Hw'. by rewrite Hget.
Qed.

Lemma duplicate_found_on_first_use_sample :
  (len (replicate 2048 "zoo"%string) = BankSize
   ∧ occurs_twice "zoo" (replicate 2048 "zoo"%string))
  ∧ ∃ c w,
      NewCodec Sample.sum_ecc (replicate 2048 "zoo"%string) = Ok c
      ∧ occurs_twice w (replicate 2048 "zoo"%string)
      ∧ first_repeated w (replicate 2048 "zoo"%string)
      ∧ (∀ word, GetIndex c word = Err (DuplicateWord w))
      ∧ (∀ ws, ws ≠ [] -> WordsToBytes c ws = Err (DuplicateWord w))
      ∧ (∀ raw, 0 < wordlenFromBytes (len (AddECC Sample.sum_ecc raw)) ->
                BytesToWords c raw = Err (DuplicateWord w)).
Proof.
  assert (Htwice : occurs_twice "zoo" (replicate 2048 "zoo"%string)).
  { exists 0%nat, 1%nat. split; [lia |]. split; reflexivity. }
  split.
  - split; [reflexivity | exact Htwice].
  - apply (duplicate_found_on_first_use Sample.sum_ecc _ "zoo").
    + reflexivity.
    + exact Htwice.
Defined.

(** * Big-endian integers *)

Section BigEndian.

Implicit Types (b : Byte.byte) (buf : list Byte.byte) (z : Z) (n k m : nat).

Lemma byte_val_range b : 0 <= byte_val b < 256.
Proof.
  unfold byte_val. pose proof (Byte.to_N_bounded b). lia.
Qed.

Lemma byte_of_low z b : byte_of (z * 256 + byte_val b) = b.
Proof.
  unfold byte_of. pose proof (byte_val_range b) as Hb.
  rewrite Z.add_comm, Z.mod_add by lia.
  rewrite Z.mod_small by lia.
  unfold byte_val. rewrite N2Z.id, Byte.of_to_N. done.
Qed.

Lemma SetBytes_snoc buf b : SetBytes (buf ++ [b]) = SetBytes buf * 256 + byte_val b.
Proof. unfold SetBytes. by rewrite fold_left_app. Qed.

Lemma SetBytes_range buf : 0 <= SetBytes buf < 256 ^ len buf.
Proof.
  induction buf as [| b buf IH] using rev_ind.
  - unfold SetBytes, len. simpl. lia.
  - rewrite SetBytes_snoc. unfold len in *.
    rewrite length_app, Nat2Z.inj_add. simpl length.
    rewrite Z.pow_add_r by lia.
    pose proof (byte_val_range b). change (256 ^ Z.of_nat 1) with 256. nia.
Qed.

Lemma length_be_bytes n : ∀ z, length (be_bytes n z) = n.
Proof.
  induction n as [| n IH]; intros z; simpl; [done |].
  rewrite length_app, IH. simpl. lia.
Qed.

(** Rendering at the buffer's own length gives the buffer back, leading
    zero bytes included. *)
Lemma be_bytes_SetBytes buf : be_bytes (length buf) (SetBytes buf) = buf.
Proof.
  induction buf as [| b buf IH] using rev_ind; [done |].
  rewrite length_app, Nat.add_1_r, SetBytes_snoc. simpl.
  rewrite byte_of_low. f_equal.
  pose proof (byte_val_range b).
  rewrite Z.add_comm, Z.div_add, Z.div_small by lia. simpl. exact IH.
Qed.

Lemma be_bytes_zero k : be_bytes k 0 = replicate k Byte.x00.
Proof.
  induction k as [| k IH]; [done |].
  simpl be_bytes. change (0 `div` 256) with 0. rewrite IH.
  change [byte_of 0] with (replicate 1 Byte.x00).
  rewrite <- replicate_add. f_equal. lia.
Qed.

(** A value that fits [m] bytes, rendered at [k + m] bytes, starts with
    [k] zero bytes. *)
Lemma be_bytes_pad k m : ∀ z,
  0 <= z < 256 ^ Z.of_nat m ->
  be_bytes (k + m) z = replicate k Byte.x00 ++ be_bytes m z.
Proof.
  induction m as [| m IH]; intros z Hz.
  - change (256 ^ Z.of_nat 0) with 1 in Hz. assert (z = 0) as -> by lia.
    rewrite Nat.add_0_r, be_bytes_zero. simpl. by rewrite app_nil_r.
  - rewrite Nat.add_succ_r. simpl be_bytes.
    rewrite IH, app_assoc; [done |].
    rewrite Nat2Z.inj_succ, Z.pow_succ_r in Hz by lia.
    split; [apply Z.div_pos; lia |].
    apply Z.div_lt_upper_bound; lia.
Qed.

Lemma byte_len_fits z (L : nat) :
  0 <= z < 256 ^ Z.of_nat L ->
  (byte_len z <= L)%nat ∧ z < 256 ^ Z.of_nat (byte_len z).
Proof.
  intros Hz. unfold byte_len. destruct (Z.leb_spec z 0) as [Hle | Hpos].
  - split; [lia |]. simpl. lia.
  - pose proof (Z.log2_nonneg z) as Hlog.
    pose proof (Z.log2_spec z Hpos) as [_ Hup].
    pose proof (Z.div_mod (Z.log2 z) 8) as Hdm.
    pose proof (Z.mod_pos_bound (Z.log2 z) 8) as Hmod.
    set (q := Z.log2 z `div` 8) in *.
    assert (Hq : 0 <= q) by (subst q; apply Z.div_pos; lia).
    rewrite Z2Nat.id by lia.
    assert (H256 : ∀ x, 0 <= x -> 256 ^ x = 2 ^ (8 * x)).
    { intros x Hx. change 256 with (2 ^ 8). by rewrite <- Z.pow_mul_r by lia. }
    split.
    + destruct (decide (Z.log2 z < 8 * Z.of_nat L)) as [Hlt | Hge]; [lia |].
      exfalso. rewrite H256 in Hz by lia.
      assert (2 ^ (8 * Z.of_nat L) <= 2 ^ Z.log2 z)
        by (apply Z.pow_le_mono_r; lia).
      pose proof (Z.log2_spec z Hpos). lia.
    + rewrite H256 by lia.
      eapply Z.lt_le_trans; [exact Hup |].
      apply Z.pow_le_mono_r; lia.
Qed.

Lemma Bytes_nonneg z : 0 <= z -> Bytes z = be_bytes (byte_len z) z.
Proof. intros Hz. unfold Bytes. by rewrite Z.abs_eq. Qed.

Lemma len_Bytes z : 0 <= z -> len (Bytes z) = Z.of_nat (byte_len z).
Proof. intros Hz. unfold len. by rewrite Bytes_nonneg, length_be_bytes. Qed.

(** What [make] and [copy] leave in [toCheck]. *)
Lemma fill_buffer_eq (outLen : Z) buf :
  0 <= outLen ->
  fill_buffer outLen buf =
    if len buf <=? outLen
    then Ok (replicate (Z.to_nat (outLen - len buf)) Byte.x00 ++ buf)
    else Panic SliceBoundsOutOfRange.
Proof.
  intros Hout. unfold fill_buffer, make.
  destruct (Z.ltb_spec outLen 0) as [? | _]; [lia |]. simpl.
  unfold slice_from, len. rewrite length_replicate, Z2Nat.id by lia.
  destruct (Z.leb_spec (Z.of_nat (length buf)) outLen) as [Hfit | Hbig].
  - destruct (Z.ltb_spec (outLen - Z.of_nat (length buf)) 0) as [? | _]; [lia |].
    destruct (Z.ltb_spec outLen (outLen - Z.of_nat (length buf))) as [? | _]; [lia |].
    simpl. f_equal. unfold copy.
    rewrite take_replicate, drop_replicate, length_replicate.
    rewrite drop_replicate, Nat.min_l by lia.
    replace (Z.to_nat outLen - Z.to_nat (outLen - Z.of_nat (length buf)))%nat
      with (length buf) by lia.
    rewrite firstn_all, Nat.sub_diag. simpl. by rewrite app_nil_r.
  - destruct (Z.ltb_spec (outLen - Z.of_nat (length buf)) 0) as [_ | ?]; [| lia].
    done.
Qed.

(** A value below [256 ^ L] is laid out as its [L]-byte rendering. *)
Lemma fill_buffer_fits z (L : nat) :
  0 <= z < 256 ^ Z.of_nat L ->
  fill_buffer (Z.of_nat L) (Bytes z) = Ok (be_bytes L z).
Proof.
  intros Hz. destruct (byte_len_fits z L Hz) as [Hle Hlt].
  rewrite fill_buffer_eq, len_Bytes by lia.
  destruct (Z.leb_spec (Z.of_nat (byte_len z)) (Z.of_nat L)) as [_ | ?]; [| lia].
  f_equal. rewrite Bytes_nonneg by lia.
  replace L with ((L - byte_len z) + byte_len z)%nat at 2 by lia.
  rewrite be_bytes_pad by lia. do 2 f_equal. lia.
Qed.

End BigEndian.

(** * Base-2048 digits *)

Section Digits.

Implicit Types (z : Z) (i n : nat).

Lemma digit_0 z : digit z 0 = z `mod` 2048.
Proof. unfold digit. simpl. by rewrite Z.div_1_r. Qed.

Lemma digit_S z i : digit z (S i) = digit (z `div` 2048) i.
Proof.
  unfold digit. rewrite Nat2Z.inj_succ, Z.pow_succ_r by lia.
  rewrite Z.div_div by lia. done.
Qed.

Lemma digit_range z i : 0 <= digit z i < 2048.
Proof. unfold digit. apply Z.mod_pos_bound. lia. Qed.

Lemma digits_S z n :
  map (digit z) (seq 0 (S n)) = z `mod` 2048 :: map (digit (z `div` 2048)) (seq 0 n).
Proof.
  simpl. rewrite digit_0. f_equal.
  rewrite <- seq_shift, map_map. apply map_ext. intros i. apply digit_S.
Qed.

(** Folding the first [n] digits of [z] gives [z] back up to [2048 ^ n]. *)
Lemma fold_digits_digits n : ∀ z,
  fold_digits (map (digit z) (seq 0 n)) = z `mod` 2048 ^ Z.of_nat n.
Proof.
  induction n as [| n IH]; intros z.
  - simpl. by rewrite Z.mod_1_r.
  - rewrite digits_S. unfold fold_digits in *. simpl fold_right. rewrite IH.
    rewrite Nat2Z.inj_succ, Z.pow_succ_r by lia.
    rewrite Z.rem_mul_r by lia. lia.
Qed.

End Digits.

(** * The two loops on a codec built from a bank without repetition *)

Section Built.

Variables (k : ECC) (bank : list string) (c : WordCodec).
Hypothesis Hbuilt : NewCodec k bank = Ok c.
Hypothesis Hnodup : NoDup bank.

Lemma built_fields :
  len bank = 2048 ∧ words c = bank ∧ bytes c = None ∧ check c = k.
Proof. by apply NewCodec_Ok_inv. Qed.

Lemma bank_word_at (d : Z) :
  0 <= d < 2048 -> ∃ w, bank !! Z.to_nat d = Some w.
Proof.
  intros Hd. destruct built_fields as (Hlen & _).
  apply lookup_lt_is_Some_2. unfold len in Hlen. lia.
Qed.

Lemma GetIndex_built (d : Z) (w : string) :
  0 <= d -> bank !! Z.to_nat d = Some w -> GetIndex c w = Ok d.
Proof.
  intros Hd Hw. destruct built_fields as (_ & Hwords & Hnil & _).
  rewrite (GetIndex_bank_word c Hnil (Z.to_nat d) w).
  - by rewrite Z2Nat.id.
  - by rewrite Hwords.
  - by rewrite Hwords.
Qed.

Lemma GetIndex_built_absent (w : string) :
  w ∉ bank -> GetIndex c w = Err (UnrecognizedWord w).
Proof.
  intros Hw. destruct built_fields as (_ & Hwords & Hnil & _).
  apply GetIndex_absent; by rewrite ?Hwords.
Qed.

(** The encoding loop appends, for each of its [n] rounds, the bank word
    of the next digit. *)
Lemma encode_loop_digits (n : nat) : ∀ (z : Z) (acc : list string),
  ∃ ws, encode_loop c n z acc = Ok (acc ++ ws)
        ∧ Forall2 (fun w d => bank !! Z.to_nat d = Some w)
                  ws (map (digit z) (seq 0 n)).
Proof.
  destruct built_fields as (_ & Hwords & _).
  induction n as [| n IH]; intros z acc.
  - exists []. split; [by rewrite app_nil_r | constructor].
  - rewrite digits_S. simpl encode_loop. rewrite Hwords.
    destruct (bank_word_at (z `mod` 2048)) as [w Hw].
    { apply Z.mod_pos_bound. lia. }
    rewrite Hw, (GetIndex_built (z `mod` 2048) w); [| apply Z.mod_pos_bound; lia | done].
    simpl. destruct (IH (z `div` 2048) (acc ++ [w])) as (ws & -> & Hws).
    exists (w :: ws). split.
    + by rewrite <- app_assoc.
    + by constructor.
Qed.

Lemma decode_loop_app (l1 l2 : list string) : ∀ a : Z,
  decode_loop c (l1 ++ l2) a = decode_loop c l1 a ≫= decode_loop c l2.
Proof.
  induction l1 as [| w l1 IH]; intros a; simpl; [done |].
  destruct (GetIndex c w) as [rem | e | p]; simpl; [apply IH | done | done].
Qed.

(** The decoding loop folds the digits of the words from the last word
    to the first. *)
Lemma words_value_digits (wds : list string) (ds : list Z) :
  Forall2 (fun w d => GetIndex c w = Ok d) wds ds ->
  words_value c wds = Ok (fold_digits ds).
Proof.
  unfold words_value. induction 1 as [| w d wds ds Hw _ IH]; [done |].
  simpl rev. rewrite decode_loop_app, IH. simpl. rewrite Hw. simpl.
  done.
Qed.

Lemma bank_digits_indexed (wds : list string) (ds : list Z) :
  Forall (fun d => 0 <= d) ds ->
  Forall2 (fun w d => bank !! Z.to_nat d = Some w) wds ds ->
  Forall2 (fun w d => GetIndex c w = Ok d) wds ds.
Proof.
  intros Hpos Hws. induction Hws as [| w d wds ds Hw _ IH]; [constructor |].
  apply Forall_cons in Hpos as [Hd Hpos].
  constructor; [by apply GetIndex_built | by apply IH].
Qed.

Lemma digits_nonneg (z : Z) (n : nat) :
  Forall (fun d => 0 <= d) (map (digit z) (seq 0 n)).
Proof.
  apply List.Forall_forall. intros d Hd. apply in_map_iff in Hd as (i & <- & _).
  apply digit_range.
Qed.

End Built.

(** * Digit order *)

Lemma lookup_digits (z : Z) (n i : nat) :
  (i < n)%nat -> map (digit z) (seq 0 n) !! i = Some (digit z i).
Proof.
  intros Hi. change (map (digit z) (seq 0 n)) with (digit z <$> seq 0 n).
  rewrite list_lookup_fmap, lookup_seq_lt by done. done.
Qed.

(** C5: encoding emits the digits least significant first, the first word
    being the bank word of the remainder of the first division by 2048 and
    the word at position [i] that of the digit of weight [2048 ^ i];
    decoding folds the digits of the words from the last to the first with
    [accumulator * 2048 + digit], which gives the encoded integer back. *)
Theorem digits_least_significant_first
    (k : ECC) (bank : list string) (c : WordCodec) (raw : list Byte.byte) :
  NewCodec k bank = Ok c -> NoDup bank ->
  let N := SetBytes (AddECC k raw) in
  let n := Z.to_nat (wordlenFromBytes (len (AddECC k raw))) in
  ∃ ws,
    BytesToWords c raw = Ok ws
    ∧ length ws = n
    ∧ ((0 < n)%nat -> ws !! 0%nat = bank !! Z.to_nat (N `mod` 2048))
    ∧ (∀ i : nat, (i < n)%nat -> ws !! i = bank !! Z.to_nat (digit N i))
    ∧ (∀ wds ds,
         Forall2 (fun w d => 0 <= d ∧ bank !! Z.to_nat d = Some w) wds ds ->
         words_value c wds = Ok (fold_digits ds))
    ∧ words_value c ws = Ok (N `mod` 2048 ^ Z.of_nat n).
Proof.
  intros Hbuilt Hnodup N n.
  destruct (built_fields k bank c Hbuilt) as (_ & _ & _ & Hcheck).
  destruct (encode_loop_digits k bank c Hbuilt Hnodup n N []) as (ws & Hrun & Hws).
  assert (Hlen : length ws = n).
  { apply Forall2_length in Hws. by rewrite length_map, length_seq in Hws. }
  assert (Hat : ∀ i : nat, (i < n)%nat -> ws !! i = bank !! Z.to_nat (digit N i)).
  { intros i Hi.
    destruct (lookup_lt_is_Some_2 ws i) as [w Hw]; [lia |].
    pose proof (Forall2_lookup_lr _ _ _ _ _ _ Hws Hw (lookup_digits N n i Hi)) as Hb.
    by rewrite Hw, Hb. }
  exists ws. split; [| split; [| split; [| split; [| split]]]].
  - unfold BytesToWords. rewrite Hcheck. exact Hrun.
  - exact Hlen.
  - intros Hn. rewrite (Hat 0%nat Hn). by rewrite digit_0.
  - exact Hat.
  - intros wds ds Hds. apply (words_value_digits c).
    eapply Forall2_impl; [exact Hds |].
    intros w d [Hd Hw]. by apply (GetIndex_built k bank c).
  - rewrite <- fold_digits_digits. apply (words_value_digits c).
    apply (bank_digits_indexed k bank c Hbuilt Hnodup); [apply digits_nonneg | done].
Qed.

Lemma digits_least_significant_first_sample :
  (NewCodec Sample.sum_ecc Sample.bank = Ok (Sample.codec Sample.sum_ecc)
   ∧ NoDup Sample.bank)
  ∧ let raw := [Byte.x01; Byte.x02] in
    let N := SetBytes (AddECC Sample.sum_ecc raw) in
    let n := Z.to_nat (wordlenFromBytes (len (AddECC Sample.sum_ecc raw))) in
    ∃ ws,
      BytesToWords (Sample.codec Sample.sum_ecc) raw = Ok ws
      ∧ length ws = n
      ∧ ((0 < n)%nat -> ws !! 0%nat = Sample.bank !! Z.to_nat (N `mod` 2048))
      ∧ (∀ i : nat, (i < n)%nat -> ws !! i = Sample.bank !! Z.to_nat (digit N i))
      ∧ (∀ wds ds,
           Forall2 (fun w d => 0 <= d ∧ Sample.bank !! Z.to_nat d = Some w) wds ds ->
           words_value (Sample.codec Sample.sum_ecc) wds = Ok (fold_digits ds))
      ∧ words_value (Sample.codec Sample.sum_ecc) ws = Ok (N `mod` 2048 ^ Z.of_nat n).
Proof.
  split.
  - split; [apply sample_codec_built | apply sample_bank_NoDup].
  - apply (digits_least_significant_first Sample.sum_ecc Sample.bank
             (Sample.codec Sample.sum_ecc) [Byte.x01; Byte.x02]).
    + apply sample_codec_built.
    + apply sample_bank_NoDup.
Defined.

(** * Unrecognized words *)

Section Unrecognized.

Variables (k : ECC) (bank : list string) (c : WordCodec).
Hypothesis Hbuilt : NewCodec k bank = Ok c.
Hypothesis Hnodup : NoDup bank.

Lemma decode_loop_bank_words (l : list string) : ∀ a : Z,
  Forall (fun x => x ∈ bank) l -> ∃ v, decode_loop c l a = Ok v.
Proof.
  induction l as [| w l IH]; intros a Hl; [by exists a |].
  apply Forall_cons in Hl as [Hw Hl].
  apply list_elem_of_lookup in Hw as [j Hj].
  simpl. rewrite (GetIndex_built k bank c Hbuilt Hnodup (Z.of_nat j) w).
  - simpl. by apply IH.
  - lia.
  - by rewrite Nat2Z.id.
Qed.

(** The loop stops at the last string of the sequence that the bank does
    not have. *)
Lemma words_value_last_absent (pre suf : list string) (w : string) :
  w ∉ bank -> Forall (fun x => x ∈ bank) suf ->
  words_value c (pre ++ (w :: suf)) = Err (UnrecognizedWord w).
Proof.
  intros Hw Hsuf. unfold words_value.
  rewrite rev_app_distr. simpl rev. rewrite <- app_assoc. simpl.
  rewrite (decode_loop_app c).
  destruct (decode_loop_bank_words (rev suf) 0) as [v ->].
  { by apply List.Forall_rev. }
  simpl. by rewrite (GetIndex_built_absent k bank c Hbuilt Hnodup w Hw).
Qed.

Lemma last_absent_split (wds : list string) : ∀ w0,
  w0 ∈ wds -> w0 ∉ bank ->
  ∃ pre w suf, wds = pre ++ (w :: suf) ∧ (w ∉ bank) ∧ Forall (fun x => x ∈ bank) suf.
Proof.
  induction wds as [| x rest IH]; intros w0 Hin Hout.
  - by apply elem_of_nil in Hin.
  - destruct (decide (Forall (fun x => x ∈ bank) rest)) as [Hall | Hsome].
    + exists [], x, rest. split; [done |]. split; [| done].
      apply elem_of_cons in Hin as [<- | Hin]; [done |].
      exfalso. apply Hout. by apply (proj1 (Forall_forall _ _) Hall).
    + apply not_Forall_Exists in Hsome; [| intros y; apply _].
      apply Exists_exists in Hsome as (w1 & Hw1 & Hw1').
      destruct (IH w1 Hw1 Hw1') as (pre & w & suf & -> & Hw & Hsuf).
      exists (x :: pre), w, suf. done.
Qed.

End Unrecognized.

(** C6: decoding a sequence that contains a string the bank does not have
    fails with the unrecognized-word error naming such a string, wherever
    it stands: the one after which only bank words follow; when a single
    string is absent, that is the string named. *)
Theorem unrecognized_word_reported
    (k : ECC) (bank : list string) (c : WordCodec) (wds : list string) (w0 : string) :
  NewCodec k bank = Ok c -> NoDup bank ->
  w0 ∈ wds -> w0 ∉ bank ->
  (∃ pre w suf,
      wds = pre ++ (w :: suf) ∧ (w ∉ bank) ∧ Forall (fun x => x ∈ bank) suf
      ∧ WordsToBytes c wds = Err (UnrecognizedWord w))
  ∧ ((∀ x, x ∈ wds -> x ∉ bank -> x = w0) ->
     WordsToBytes c wds = Err (UnrecognizedWord w0)).
Proof.
  intros Hbuilt Hnodup Hin Hout.
  destruct (last_absent_split bank wds w0 Hin Hout) as (pre & w & suf & -> & Hw & Hsuf).
  assert (Hrun : WordsToBytes c (pre ++ (w :: suf)) = Err (UnrecognizedWord w)).
  { unfold WordsToBytes.
    by rewrite (words_value_last_absent k bank c Hbuilt Hnodup pre suf w Hw Hsuf). }
  split.
  - exists pre, w, suf. done.
  - intros Honly. rewrite Hrun. do 2 f_equal. apply Honly; [| done].
    apply elem_of_app. right. apply list_elem_of_here.
Qed.

Lemma unrecognized_word_reported_sample :
  (NewCodec Sample.sum_ecc Sample.bank = Ok (Sample.codec Sample.sum_ecc)
   ∧ NoDup Sample.bank
   ∧ "zzz"%string ∈ ["cad"; "zzz"; "aaa"]%string ∧ "zzz"%string ∉ Sample.bank)
  ∧ (∃ pre w suf,
        ["cad"; "zzz"; "aaa"]%string = pre ++ (w :: suf) ∧ (w ∉ Sample.bank)
        ∧ Forall (fun x => x ∈ Sample.bank) suf
        ∧ WordsToBytes (Sample.codec Sample.sum_ecc) ["cad"; "zzz"; "aaa"]%string
          = Err (UnrecognizedWord w))
  ∧ ((∀ x, x ∈ ["cad"; "zzz"; "aaa"]%string -> x ∉ Sample.bank -> x = "zzz"%string) ->
     WordsToBytes (Sample.codec Sample.sum_ecc) ["cad"; "zzz"; "aaa"]%string
     = Err (UnrecognizedWord "zzz")).
Proof.
  assert (Hin : "zzz"%string ∈ ["cad"; "zzz"; "aaa"]%string).
  { apply list_elem_of_further, list_elem_of_here. }
  assert (Hout : "zzz"%string ∉ Sample.bank).
  { intros Hw. apply list_elem_of_lookup in Hw as [i Hi].
    pose proof (lookup_lt_Some _ _ _ Hi) as Hlt.
    change (length Sample.bank) with 2048%nat in Hlt.
    rewrite sample_bank_lookup in Hi by done.
    unfold Sample.word_at, Sample.letter in Hi.
    remember (97 + i / 256)%nat as a eqn:Ha.
    injection Hi as H1 _ _.
    apply (f_equal Ascii.nat_of_ascii) in H1.
    assert (i / 256 < 8)%nat by (apply Nat.Div0.div_lt_upper_bound; lia).
    rewrite Ascii.nat_ascii_embedding in H1 by lia.
    compute in H1. lia. }
  split.
  - split; [apply sample_codec_built |]. split; [apply sample_bank_NoDup |]. done.
  - apply (unrecognized_word_reported Sample.sum_ecc Sample.bank
             (Sample.codec Sample.sum_ecc) _ "zzz").
    + apply sample_codec_built.
    + apply sample_bank_NoDup.
    + exact Hin.
    + exact Hout.
Defined.

(** * Verification and the retry *)

Lemma byte_eqb_refl (b : Byte.byte) : Byte.eqb b b = true.
Proof. by apply Byte.byte_dec_lb. Qed.

(** A checksum that appends one byte computed from the payload meets the
    contract of the interface. *)
Lemma check_with_contract (code_of : list Byte.byte -> Byte.byte) :
  ecc_contract {| AddECC := fun data => data ++ [code_of data];
                  CheckECC := Sample.check_with code_of |}.
Proof.
  exists 1. intros x. simpl. split.
  - unfold Sample.check_with, Sample.split_last.
    rewrite rev_app_distr. simpl. rewrite rev_involutive.
    by rewrite byte_eqb_refl.
  - unfold len. rewrite length_app. simpl. lia.
Qed.

Lemma slice_from_1_cons {A : Type} (x : A) (l : list A) :
  slice_from (x :: l) 1 = Ok l.
Proof.
  unfold slice_from, len. simpl length.
  destruct (Z.ltb_spec (Z.of_nat (S (length l))) 1) as [? | _]; [lia |].
  done.
Qed.

(** What [WordsToBytes] returns once the first verification has failed:
    without the flag, the error of that verification; with the flag, the
    outcome of verifying the buffer without its first byte, which needs the
    buffer to have one. *)
Lemma WordsToBytes_after_failed_check
    (c : WordCodec) (wds : list string) (nData : Z)
    (toCheck : list Byte.byte) (err : string) :
  words_value c wds = Ok nData ->
  fill_buffer (bytelenFromWords (len wds)).1 (Bytes nData) = Ok toCheck ->
  CheckECC (check c) toCheck = Invalid err ->
  WordsToBytes c wds =
    if (bytelenFromWords (len wds)).2 then
      match toCheck with
      | [] => Panic SliceBoundsOutOfRange
      | _ :: toCheck' => report (CheckECC (check c) toCheck')
      end
    else Err (ChecksumMismatch err).
Proof.
  intros Hval Hfill Hcheck. unfold WordsToBytes. rewrite Hval. result_step.
  destruct (bytelenFromWords (len wds)) as [outLen flex]. cbn [fst snd] in *.
  rewrite Hfill. result_step. unfold verify. rewrite Hcheck.
  destruct flex; [| done]. destruct toCheck as [| b rest]; [done |].
  by rewrite slice_from_1_cons.
Qed.

Lemma WordsToBytes_empty (c : WordCodec) :
  WordsToBytes c [] =
    match CheckECC (check c) [] with
    | Valid output => Ok output
    | Invalid _ => Panic SliceBoundsOutOfRange
    end.
Proof.
  unfold WordsToBytes, words_value. cbn [rev decode_loop]. result_step.
  change (bytelenFromWords (len [])) with (0, true). cbv beta iota.
  change (fill_buffer 0 (Bytes 0)) with (Ok (@nil Byte.byte)). result_step.
  unfold verify. by destruct (CheckECC (check c) []).
Qed.

(** C7, at the empty sequence: the length computed from no words is 0 with
    the flag set, the buffer to verify is empty, and when its verification
    fails the retry slices the empty buffer from 1, which panics: no
    checksum error is returned. *)
Theorem retry_on_empty_buffer_panics (c : WordCodec) (err : string) :
  CheckECC (check c) [] = Invalid err ->
  bytelenFromWords (len (@nil string)) = (0, true)
  ∧ fill_buffer 0 (Bytes 0) = Ok []
  ∧ verify (check c) true [] = Panic SliceBoundsOutOfRange
  ∧ WordsToBytes c [] = Panic SliceBoundsOutOfRange.
Proof.
  intros Hcheck. split; [reflexivity |]. split; [reflexivity |]. split.
  - unfold verify. by rewrite Hcheck.
  - by rewrite WordsToBytes_empty, Hcheck.
Qed.

Lemma retry_on_empty_buffer_panics_sample :
  CheckECC (check (Sample.codec Sample.sum_ecc)) []
  = Invalid "input too short, no checksum present"
  ∧ bytelenFromWords (len (@nil string)) = (0, true)
  ∧ fill_buffer 0 (Bytes 0) = Ok []
  ∧ verify (check (Sample.codec Sample.sum_ecc)) true [] = Panic SliceBoundsOutOfRange
  ∧ WordsToBytes (Sample.codec Sample.sum_ecc) [] = Panic SliceBoundsOutOfRange.
Proof.
  split; [reflexivity |].
  apply (retry_on_empty_buffer_panics (Sample.codec Sample.sum_ecc)
           "input too short, no checksum present").
  reflexivity.
Defined.

(** C8, as the code has it: decoding the empty sequence never returns an
    error; it returns what the checksum makes of the empty buffer when it
    accepts it, and panics when it rejects it. *)
Theorem decode_empty_sequence (c : WordCodec) :
  WordsToBytes c [] =
    match CheckECC (check c) [] with
    | Valid output => Ok output
    | Invalid _ => Panic SliceBoundsOutOfRange
    end
  ∧ ∀ e, WordsToBytes c [] ≠ Err e.
Proof.
  split; [apply WordsToBytes_empty |].
  intros e. rewrite WordsToBytes_empty. by destruct (CheckECC (check c) []).
Qed.

Lemma byte_len_two (z : Z) : 256 <= z -> (2 <= byte_len z)%nat.
Proof.
  intros Hz. unfold byte_len. destruct (Z.leb_spec z 0) as [? | _]; [lia |].
  pose proof (Z.log2_le_mono 256 z Hz) as Hlog.
  change (Z.log2 256) with 8 in Hlog.
  pose proof (Z.div_le_mono 8 (Z.log2 z) 8 eq_refl Hlog) as Hdiv.
  change (8 `div` 8) with 1 in Hdiv. lia.
Qed.

(** C9, as the code has it: a single word whose digit is 256 or more makes
    the integer two bytes long while the buffer has one, and slicing the
    buffer from [1 - 2] panics. *)
Theorem single_large_digit_panics (c : WordCodec) (w : string) (rem : Z) :
  GetIndex c w = Ok rem -> 256 <= rem ->
  WordsToBytes c [w] = Panic SliceBoundsOutOfRange.
Proof.
  intros Hget Hrem. unfold WordsToBytes, words_value. cbn [rev app decode_loop].
  rewrite Hget. result_step. change (0 * 2048 + rem) with rem.
  change (bytelenFromWords (len [w])) with (1, false). cbv beta iota.
  rewrite fill_buffer_eq, len_Bytes by lia.
  pose proof (byte_len_two rem Hrem).
  by destruct (Z.leb_spec (Z.of_nat (byte_len rem)) 1) as [? | _]; [lia |].
Qed.

Lemma single_large_digit_panics_sample :
  (GetIndex (Sample.codec Sample.sum_ecc) "baa" = Ok 256 ∧ 256 <= 256)
  ∧ WordsToBytes (Sample.codec Sample.sum_ecc) ["baa"%string]
    = Panic SliceBoundsOutOfRange.
Proof.
  assert (Hget : GetIndex (Sample.codec Sample.sum_ecc) "baa" = Ok 256).
  { apply (GetIndex_built Sample.sum_ecc Sample.bank).
    - apply sample_codec_built.
    - apply sample_bank_NoDup.
    - lia.
    - by rewrite sample_bank_lookup by (change (Z.to_nat 256) with 256%nat; lia). }
  split; [split; [exact Hget | lia] |].
  apply (single_large_digit_panics (Sample.codec Sample.sum_ecc) "baa" 256 Hget).
  lia.
Defined.

(** * Round trip *)

Section RoundTrip.

Variables (k : ECC) (bank : list string) (c : WordCodec).
Hypothesis Hbuilt : NewCodec k bank = Ok c.
Hypothesis Hnodup : NoDup bank.

Variable raw : list Byte.byte.
Hypothesis Hrange : 8 * len (AddECC k raw) + 10 <= GoInt.int_max.

(** Encoding succeeds, with as many words as [wordlenFromBytes] says,
    and the decoding loop finds the integer of the augmented buffer. *)
Lemma encode_then_value :
  ∃ ws, BytesToWords c raw = Ok ws
        ∧ len ws = wordlenFromBytes (len (AddECC k raw))
        ∧ words_value c ws = Ok (SetBytes (AddECC k raw)).
Proof.
  destruct (built_fields k bank c Hbuilt) as (_ & _ & _ & Hcheck).
  set (data := AddECC k raw) in *.
  assert (Hn : 0 <= len data) by (unfold len; lia).
  destruct (candidate_length_cases (len data) Hn Hrange) as (Hw & Hw' & _).
  set (w := wordlenFromBytes (len data)) in *.
  destruct (encode_loop_digits k bank c Hbuilt Hnodup (Z.to_nat w) (SetBytes data) [])
    as (ws & Hrun & Hws).
  exists ws. split; [| split].
  - unfold BytesToWords. rewrite Hcheck. exact Hrun.
  - apply Forall2_length in Hws. rewrite length_map, length_seq in Hws.
    unfold len at 1. rewrite Hws. lia.
  - rewrite (words_value_digits c ws (map (digit (SetBytes data)) (seq 0 (Z.to_nat w)))).
    + rewrite fold_digits_digits, Z2Nat.id by lia. f_equal.
      apply Z.mod_small. pose proof (SetBytes_range data) as [Hlo Hhi].
      split; [done |]. eapply Z.lt_le_trans; [exact Hhi |].
      change 256 with (2 ^ 8). change 2048 with (2 ^ 11).
      rewrite <- !Z.pow_mul_r by lia. apply Z.pow_le_mono_r; lia.
    + apply (bank_digits_indexed k bank c Hbuilt Hnodup); [apply digits_nonneg | done].
Qed.

Hypothesis Hcontract : ecc_contract k.
Hypothesis Hreject :
  (bytelenFromWords (wordlenFromBytes (len (AddECC k raw)))).1
  = len (AddECC k raw) + 1 ->
  ∀ out, CheckECC k (Byte.x00 :: AddECC k raw) = Valid out -> out = raw.

Lemma decode_after_encode :
  BytesToWords c raw ≫= WordsToBytes c = Ok raw.
Proof.
  destruct (built_fields k bank c Hbuilt) as (_ & _ & _ & Hcheck).
  destruct encode_then_value as (ws & -> & Hlen & Hval). result_step.
  unfold WordsToBytes. rewrite Hval, Hlen, Hcheck. result_step.
  destruct Hcontract as (width & Hk). destruct (Hk raw) as [Hvalid _].
  set (data := AddECC k raw) in *.
  assert (Hn : 0 <= len data) by (unfold len; lia).
  pose proof (SetBytes_range data) as HN.
  destruct (candidate_length_cases (len data) Hn Hrange) as (_ & _ & [Hsame | Hlonger]).
  - destruct (bytelenFromWords (wordlenFromBytes (len data))) as [outLen flex].
    cbn [fst] in Hsame. subst outLen.
    unfold len at 1. rewrite fill_buffer_fits by exact HN.
    rewrite be_bytes_SetBytes. result_step.
    unfold verify. by rewrite Hvalid.
  - rewrite Hlonger in Hreject |- *.
    replace (len data + 1) with (Z.of_nat (1 + length data))
      by (unfold len; lia).
    rewrite fill_buffer_fits.
    + rewrite (be_bytes_pad 1 (length data)) by exact HN.
      rewrite be_bytes_SetBytes. result_step.
      change (replicate 1 Byte.x00 ++ data) with (Byte.x00 :: data).
      unfold verify.
      destruct (CheckECC k (Byte.x00 :: data)) as [out | err] eqn:Hfirst.
      * f_equal. by apply Hreject.
      * rewrite slice_from_1_cons. result_step. by rewrite Hvalid.
    + split; [lia |]. eapply Z.lt_le_trans; [apply HN |].
      apply Z.pow_le_mono_r; unfold len; lia.
Qed.

End RoundTrip.

(** C1, as the code has it: a checksum that meets the contract, a bank of
    2048 distinct words and a two-byte buffer whose three-byte augmented
    buffer is tried first at four bytes; the checksum accepts it with the
    zero byte in front, and decoding returns three bytes. *)
Lemma round_trip_keeps_accepted_zero_byte :
  ecc_contract Sample.sum_ecc
  ∧ NewCodec Sample.sum_ecc Sample.bank = Ok (Sample.codec Sample.sum_ecc)
  ∧ NoDup Sample.bank
  ∧ BytesToWords (Sample.codec Sample.sum_ecc) [Byte.x01; Byte.x02]
    = Ok ["cad"; "aca"; "aaa"]%string
  ∧ WordsToBytes (Sample.codec Sample.sum_ecc) ["cad"; "aca"; "aaa"]%string
    = Ok [Byte.x00; Byte.x01; Byte.x02]
  ∧ BytesToWords (Sample.codec Sample.sum_ecc) [Byte.x01; Byte.x02]
    ≫= WordsToBytes (Sample.codec Sample.sum_ecc)
    ≠ Ok [Byte.x01; Byte.x02].
Proof.
  split; [apply check_with_contract |].
  split; [apply sample_codec_built |].
  split; [apply sample_bank_NoDup |].
  assert (Henc : BytesToWords (Sample.codec Sample.sum_ecc) [Byte.x01; Byte.x02]
                 = Ok ["cad"; "aca"; "aaa"]%string) by (vm_compute; reflexivity).
  assert (Hdec : WordsToBytes (Sample.codec Sample.sum_ecc) ["cad"; "aca"; "aaa"]%string
                 = Ok [Byte.x00; Byte.x01; Byte.x02]) by (vm_compute; reflexivity).
  split; [exact Henc |]. split; [exact Hdec |].
  rewrite Henc. result_step. rewrite Hdec. discriminate.
Qed.

(** C1, amended: on a codec built from a bank of 2048 distinct words, with
    a checksum that meets its contract, decoding the encoding of a buffer
    gives the buffer back, provided that, when the length computed from the
    word count is one more than that of the augmented buffer, the checksum
    does not accept the augmented buffer with a zero byte in front as a
    different payload. *)
Theorem round_trip
    (k : ECC) (bank : list string) (c : WordCodec) (raw : list Byte.byte) :
  NewCodec k bank = Ok c -> NoDup bank ->
  ecc_contract k ->
  8 * len (AddECC k raw) + 10 <= GoInt.int_max ->
  ((bytelenFromWords (wordlenFromBytes (len (AddECC k raw)))).1
   = len (AddECC k raw) + 1 ->
   ∀ out, CheckECC k (Byte.x00 :: AddECC k raw) = Valid out -> out = raw) ->
  BytesToWords c raw ≫= WordsToBytes c = Ok raw.
Proof.
  intros Hbuilt Hnodup Hcontract Hrange Hreject.
  by apply (decode_after_encode k bank).
Qed.

Lemma round_trip_sample :
  (NewCodec Sample.lensum_ecc Sample.bank = Ok (Sample.codec Sample.lensum_ecc)
   ∧ NoDup Sample.bank
   ∧ ecc_contract Sample.lensum_ecc
   ∧ 8 * len (AddECC Sample.lensum_ecc [Byte.x01; Byte.x02]) + 10 <= GoInt.int_max
   ∧ (bytelenFromWords
        (wordlenFromBytes (len (AddECC Sample.lensum_ecc [Byte.x01; Byte.x02])))).1
     = len (AddECC Sample.lensum_ecc [Byte.x01; Byte.x02]) + 1
   ∧ CheckECC Sample.lensum_ecc
       (Byte.x00 :: AddECC Sample.lensum_ecc [Byte.x01; Byte.x02])
     = Invalid "Checksum does not match")
  ∧ BytesToWords (Sample.codec Sample.lensum_ecc) [Byte.x01; Byte.x02]
    ≫= WordsToBytes (Sample.codec Sample.lensum_ecc)
    = Ok [Byte.x01; Byte.x02].
Proof.
  assert (Hfirst : CheckECC Sample.lensum_ecc
                     (Byte.x00 :: AddECC Sample.lensum_ecc [Byte.x01; Byte.x02])
                   = Invalid "Checksum does not match")
    by (vm_compute; reflexivity).
  split.
  - split; [apply sample_codec_built |].
    split; [apply sample_bank_NoDup |].
    split; [apply check_with_contract |].
    split; [vm_compute; discriminate |].
    split; [vm_compute; reflexivity | exact Hfirst].
  - apply (round_trip Sample.lensum_ecc Sample.bank).
    + apply sample_codec_built.
    + apply sample_bank_NoDup.
    + apply check_with_contract.
    + vm_compute. discriminate.
    + intros _ out Hout. rewrite Hfirst in Hout. discriminate.
Defined.

(** * Further properties of the length functions *)

Lemma floor_div_bounds (a b : Z) :
  0 < b -> b * (a `div` b) <= a < b * (a `div` b) + b.
Proof.
  intros Hb. pose proof (Z.div_mod a b) as H1.
  pose proof (Z.mod_pos_bound a b Hb) as H2. lia.
Qed.

(** X1: the two length functions are adjoint: [n] bytes fit the length
    computed from [w] words exactly when [w] words are enough for [n]
    bytes. *)
Theorem lengths_adjoint (n w : Z) :
  0 <= n -> 8 * n + 10 <= GoInt.int_max ->
  0 <= w -> 11 * w <= GoInt.int_max ->
  n <= (bytelenFromWords w).1 ↔ wordlenFromBytes n <= w.
Proof.
  intros Hn Hn' Hw Hw'.
  rewrite wordlenFromBytes_in_range, bytelenFromWords_in_range by lia.
  cbn [fst].
  pose proof (floor_div_bounds (8 * n + 10) 11).
  pose proof (floor_div_bounds (11 * w) 8).
  lia.
Qed.

Lemma lengths_adjoint_sample :
  (0 <= 4 ∧ 8 * 4 + 10 <= GoInt.int_max ∧ 0 <= 3 ∧ 11 * 3 <= GoInt.int_max)
  ∧ (4 <= (bytelenFromWords 3).1 ↔ wordlenFromBytes 4 <= 3).
Proof.
  split.
  - unfold GoInt.int_max. lia.
  - apply (lengths_adjoint 4 3); unfold GoInt.int_max; lia.
Defined.

Lemma wordlen_of_candidate_length (w : Z) :
  0 <= w -> 11 * w + 10 <= GoInt.int_max ->
  wordlenFromBytes ((11 * w) `div` 8) = w.
Proof.
  intros Hw Hw'.
  pose proof (floor_div_bounds (11 * w) 8).
  rewrite wordlenFromBytes_in_range by lia.
  symmetry. apply Z.div_unique with (r := 8 * ((11 * w) `div` 8) + 10 - 11 * w); lia.
Qed.

(** X2: every word count is the word count of the length computed from it. *)
Theorem wordlen_of_bytelen (w : Z) :
  0 <= w -> 11 * w + 10 <= GoInt.int_max ->
  wordlenFromBytes (bytelenFromWords w).1 = w.
Proof.
  intros Hw Hw'. rewrite bytelenFromWords_in_range by lia. cbn [fst].
  by apply wordlen_of_candidate_length.
Qed.

Lemma wordlen_of_bytelen_sample :
  (0 <= 12 ∧ 11 * 12 + 10 <= GoInt.int_max)
  ∧ wordlenFromBytes (bytelenFromWords 12).1 = 12.
Proof.
  split.
  - unfold GoInt.int_max. lia.
  - apply (wordlen_of_bytelen 12); unfold GoInt.int_max; lia.
Defined.

Lemma maybeShorter_remainder (w : Z) :
  0 <= w -> 11 * w + 10 <= GoInt.int_max ->
  (bytelenFromWords w).2 = true ↔ (11 * w) `mod` 8 <= 2.
Proof.
  intros Hw Hw'. rewrite bytelenFromWords_in_range by lia. cbn [snd].
  rewrite bool_decide_eq_true.
  pose proof (floor_div_bounds (11 * w) 8) as HL.
  pose proof (Z.div_mod (11 * w) 8) as Hdm.
  pose proof (Z.mod_pos_bound (11 * w) 8) as Hm.
  rewrite wordlenFromBytes_in_range by lia.
  pose proof (floor_div_bounds (8 * ((11 * w) `div` 8 - 1) + 10) 11) as Hq.
  lia.
Qed.

(** X3: the flag of [bytelenFromWords] has period 8 in the word count: it is
    set exactly for the counts that are 0, 3 or 6 modulo 8, the count 0
    included. *)
Theorem maybeShorter_period (w : Z) :
  0 <= w -> 11 * w + 10 <= GoInt.int_max ->
  (bytelenFromWords w).2 = true
  ↔ w `mod` 8 = 0 ∨ w `mod` 8 = 3 ∨ w `mod` 8 = 6.
Proof.
  intros Hw Hw'. rewrite maybeShorter_remainder by done.
  pose proof (Z.div_mod w 8) as Hdm.
  pose proof (Z.mod_pos_bound w 8) as Hm.
  pose proof (Z.div_mod (11 * w) 8) as Hdm'.
  pose proof (Z.mod_pos_bound (11 * w) 8) as Hm'.
  lia.
Qed.

Lemma maybeShorter_period_sample :
  (0 <= 24 ∧ 11 * 24 + 10 <= GoInt.int_max)
  ∧ ((bytelenFromWords 24).2 = true
     ↔ 24 `mod` 8 = 0 ∨ 24 `mod` 8 = 3 ∨ 24 `mod` 8 = 6).
Proof.
  split.
  - unfold GoInt.int_max. lia.
  - apply (maybeShorter_period 24); unfold GoInt.int_max; lia.
Defined.

(** * Further properties of the index and of the two loops *)

Lemma words_value_cons (c : WordCodec) (w : string) (wds : list string) :
  words_value c (w :: wds) =
    words_value c wds ≫= fun N => GetIndex c w ≫= fun d => Ok (N * 2048 + d).
Proof.
  unfold words_value. simpl rev. rewrite decode_loop_app.
  destruct (decode_loop c (rev wds) 0) as [N | e | p]; [| done | done].
  result_step. cbn [decode_loop]. by destruct (GetIndex c w).
Qed.

(** When the first loop of [WordsToBytes] ends, every word had an index
    and the integer is the fold of the indices. *)
Lemma words_value_Ok_inv (c : WordCodec) (wds : list string) : ∀ N : Z,
  words_value c wds = Ok N ->
  ∃ ds, Forall2 (fun w d => GetIndex c w = Ok d) wds ds ∧ N = fold_digits ds.
Proof.
  induction wds as [| w wds IH]; intros N HN.
  - injection HN as <-. exists []. split; [constructor | done].
  - rewrite words_value_cons in HN.
    destruct (words_value c wds) as [N' | e | p]; [| done | done].
    cbn [mbind result_bind] in HN.
    destruct (GetIndex c w) as [d | e | p] eqn:Hd; [| done | done].
    injection HN as <-.
    destruct (IH N' eq_refl) as (ds & Hds & ->).
    exists (d :: ds). split; [by constructor | done].
Qed.

Lemma fold_digits_range (ds : list Z) :
  Forall (fun d => 0 <= d < 2048) ds ->
  0 <= fold_digits ds < 2048 ^ Z.of_nat (length ds).
Proof.
  induction 1 as [| d ds Hd _ IH].
  - unfold fold_digits. simpl. lia.
  - unfold fold_digits in *. simpl fold_right. simpl length.
    rewrite Nat2Z.inj_succ, Z.pow_succ_r by lia. lia.
Qed.

(** Digits below 2048 are the digits of their fold. *)
Lemma digits_of_fold (ds : list Z) :
  Forall (fun d => 0 <= d < 2048) ds ->
  map (digit (fold_digits ds)) (seq 0 (length ds)) = ds.
Proof.
  induction 1 as [| d ds Hd Hds IH]; [done |].
  simpl length. rewrite digits_S.
  pose proof (fold_digits_range ds Hds) as Hr.
  unfold fold_digits in *. simpl fold_right.
  rewrite Z.add_comm, Z.mod_add, Z.mod_small by lia.
  rewrite Z.div_add, Z.div_small by lia. rewrite Z.add_0_l. by rewrite IH.
Qed.

Section BuiltIndex.

Variables (k : ECC) (bank : list string) (c : WordCodec).
Hypothesis Hbuilt : NewCodec k bank = Ok c.
Hypothesis Hnodup : NoDup bank.

Lemma GetIndex_Ok_inv (w : string) (d : Z) :
  GetIndex c w = Ok d -> 0 <= d < 2048 ∧ bank !! Z.to_nat d = Some w.
Proof.
  intros Hget. destruct (built_fields k bank c Hbuilt) as (Hlen & _).
  destruct (decide (w ∈ bank)) as [Hin | Hout].
  - apply list_elem_of_lookup in Hin as [j Hj].
    pose proof (lookup_lt_Some _ _ _ Hj) as Hlt.
    rewrite (GetIndex_built k bank c Hbuilt Hnodup (Z.of_nat j) w) in Hget;
      [| lia | by rewrite Nat2Z.id].
    injection Hget as <-. rewrite Nat2Z.id. unfold len in Hlen. split; [lia | done].
  - by rewrite (GetIndex_built_absent k bank c Hbuilt Hnodup w Hout) in Hget.
Qed.

Lemma indexed_digits_range (wds : list string) (ds : list Z) :
  Forall2 (fun w d => GetIndex c w = Ok d) wds ds ->
  Forall (fun d => 0 <= d < 2048) ds
  ∧ Forall2 (fun w d => bank !! Z.to_nat d = Some w) wds ds.
Proof.
  induction 1 as [| w d wds ds Hw _ [IH1 IH2]]; [by split; constructor |].
  destruct (GetIndex_Ok_inv w d Hw) as [Hd Hb].
  split; by constructor.
Qed.

Lemma bank_words_indexed (wds : list string) :
  Forall (fun x => x ∈ bank) wds ->
  ∃ ds, Forall2 (fun w d => GetIndex c w = Ok d) wds ds.
Proof.
  induction 1 as [| w wds Hw _ [ds IH]]; [exists []; constructor |].
  apply list_elem_of_lookup in Hw as [j Hj].
  exists (Z.of_nat j :: ds). constructor; [| done].
  apply (GetIndex_built k bank c Hbuilt Hnodup); [lia | by rewrite Nat2Z.id].
Qed.

(** On a sequence of bank words the first loop of [WordsToBytes] ends
    with an integer below [2048 ^ len(words)]. *)
Lemma bank_words_value (wds : list string) :
  Forall (fun x => x ∈ bank) wds ->
  ∃ N, words_value c wds = Ok N ∧ 0 <= N < 2048 ^ len wds.
Proof.
  intros Hwds. destruct (bank_words_indexed wds Hwds) as [ds Hds].
  exists (fold_digits ds). split; [by apply words_value_digits |].
  destruct (indexed_digits_range wds ds Hds) as [Hr _].
  unfold len. rewrite (Forall2_length _ _ _ Hds). by apply fold_digits_range.
Qed.

End BuiltIndex.

(** X4: on a codec built from a bank without repetition, [GetIndex] and the
    bank are inverse to each other: it returns [d] for [w] exactly when
    [w] is the bank word at position [d], and [d] is below 2048. *)
Theorem GetIndex_inverse_of_bank
    (k : ECC) (bank : list string) (c : WordCodec) (w : string) (d : Z) :
  NewCodec k bank = Ok c -> NoDup bank ->
  GetIndex c w = Ok d ↔ 0 <= d < 2048 ∧ bank !! Z.to_nat d = Some w.
Proof.
  intros Hbuilt Hnodup. split.
  - by apply (GetIndex_Ok_inv k bank c).
  - intros [Hd Hw]. apply (GetIndex_built k bank c); [done | done | lia | done].
Qed.

Lemma GetIndex_inverse_of_bank_sample :
  (NewCodec Sample.sum_ecc Sample.bank = Ok (Sample.codec Sample.sum_ecc)
   ∧ NoDup Sample.bank)
  ∧ (GetIndex (Sample.codec Sample.sum_ecc) "cad" = Ok 515
     ↔ 0 <= 515 < 2048 ∧ Sample.bank !! Z.to_nat 515 = Some "cad"%string).
Proof.
  split.
  - split; [apply sample_codec_built | apply sample_bank_NoDup].
  - apply (GetIndex_inverse_of_bank Sample.sum_ecc Sample.bank).
    + apply sample_codec_built.
    + apply sample_bank_NoDup.
Defined.

(** * Further properties of the buffer handed to the checksum *)

Lemma byte_val_of (z : Z) : byte_val (byte_of z) = z `mod` 256.
Proof.
  unfold byte_val, byte_of.
  pose proof (Z.mod_pos_bound z 256 eq_refl) as Hm.
  destruct (Byte.of_N (Z.to_N (z `mod` 256))) as [b |] eqn:Hb.
  - simpl. apply Byte.to_of_N in Hb. rewrite Hb. lia.
  - apply Byte.of_N_None_iff in Hb. lia.
Qed.

Lemma SetBytes_be_bytes (n : nat) : ∀ z,
  SetBytes (be_bytes n z) = z `mod` 256 ^ Z.of_nat n.
Proof.
  induction n as [| n IH]; intros z.
  - simpl. by rewrite Z.mod_1_r.
  - simpl be_bytes. rewrite SetBytes_snoc, IH, byte_val_of.
    rewrite Nat2Z.inj_succ, Z.pow_succ_r by lia.
    rewrite Z.rem_mul_r by lia. lia.
Qed.

(** Only the [n] low bytes of the integer are rendered. *)
Lemma be_bytes_mod (n : nat) (z : Z) :
  be_bytes n (z `mod` 256 ^ Z.of_nat n) = be_bytes n z.
Proof.
  rewrite <- SetBytes_be_bytes.
  rewrite <- (length_be_bytes n z) at 1. apply be_bytes_SetBytes.
Qed.

Lemma be_bytes_cons (n : nat) : ∀ z,
  be_bytes (S n) z = byte_of (z `div` 256 ^ Z.of_nat n) :: be_bytes n z.
Proof.
  induction n as [| n IH]; intros z.
  - simpl. by rewrite Z.div_1_r.
  - change (be_bytes (S (S n)) z) with (be_bytes (S n) (z `div` 256) ++ [byte_of z]).
    rewrite IH. simpl. do 2 f_equal.
    rewrite Z.div_div by lia.
    by rewrite Nat2Z.inj_succ, Z.pow_succ_r by lia.
Qed.

Lemma byte_len_exceeds (z : Z) (L : nat) :
  256 ^ Z.of_nat L <= z -> (L < byte_len z)%nat.
Proof.
  intros Hz. assert (Hpos : 0 <= z) by (pose proof (Z.pow_pos_nonneg 256 (Z.of_nat L)); lia).
  destruct (byte_len_fits z (Z.to_nat z)) as [_ Hlt].
  { split; [done |]. rewrite Z2Nat.id by done. apply Z.pow_gt_lin_r; lia. }
  destruct (decide (L < byte_len z)%nat) as [? | Hge]; [done | exfalso].
  assert (256 ^ Z.of_nat (byte_len z) <= 256 ^ Z.of_nat L)
    by (apply Z.pow_le_mono_r; lia).
  lia.
Qed.

Lemma fill_buffer_Ok_len (outLen : Z) (buf toCheck : list Byte.byte) :
  fill_buffer outLen buf = Ok toCheck -> 0 <= outLen ∧ len toCheck = outLen.
Proof.
  intros Hfill. destruct (Z.ltb_spec outLen 0) as [Hneg | Hpos].
  - unfold fill_buffer, make in Hfill.
    destruct (Z.ltb_spec outLen 0) as [_ | ?]; [done | lia].
  - rewrite fill_buffer_eq in Hfill by done.
    destruct (Z.leb_spec (len buf) outLen) as [Hfit | ?]; [| done].
    injection Hfill as <-. split; [done |].
    unfold len in *. rewrite length_app, length_replicate. lia.
Qed.

Lemma verify_outcome (k : ECC) (flex : bool) (toCheck : list Byte.byte) :
  toCheck ≠ [] ->
  ∃ buf, (buf = toCheck ∨ (flex = true ∧ buf = drop 1 toCheck))
         ∧ verify k flex toCheck = report (CheckECC k buf).
Proof.
  intros Hne. unfold verify.
  destruct (CheckECC k toCheck) as [out | err] eqn:Hfirst.
  - exists toCheck. split; [by left |]. by rewrite Hfirst.
  - destruct flex.
    + destruct toCheck as [| b rest]; [done |].
      rewrite slice_from_1_cons. result_step.
      exists rest. split; [by right | done].
    + exists toCheck. split; [by left |]. by rewrite Hfirst.
Qed.

Lemma len_nonneg {A : Type} (s : list A) : 0 <= len s.
Proof. unfold len. lia. Qed.

Section Candidate.

Variables (c : WordCodec) (wds : list string) (N : Z).
Hypothesis Hvalue : words_value c wds = Ok N.
Hypothesis Hrange : 11 * len wds <= GoInt.int_max.

Let L : Z := (11 * len wds) `div` 8.

Lemma candidate_length_nonneg : 0 <= L.
Proof. subst L. pose proof (len_nonneg wds). apply Z.div_pos; lia. Qed.

(** When the integer fits the length computed from the word count, the
    buffer verified is its rendering at that length. *)
Lemma WordsToBytes_fits :
  0 <= N < 256 ^ L ->
  WordsToBytes c wds =
    verify (check c) (bytelenFromWords (len wds)).2 (be_bytes (Z.to_nat L) N).
Proof.
  intros HN. pose proof candidate_length_nonneg as HL.
  pose proof (len_nonneg wds) as Hlen.
  unfold WordsToBytes. rewrite Hvalue. result_step.
  rewrite bytelenFromWords_in_range by lia. fold L.
  cbv beta iota. cbn [snd].
  pose proof (fill_buffer_fits N (Z.to_nat L)) as Hfill.
  rewrite Z2Nat.id in Hfill by done. rewrite Hfill by done. by result_step.
Qed.

(** When it does not fit, slicing the buffer panics. *)
Lemma WordsToBytes_too_large :
  256 ^ L <= N -> WordsToBytes c wds = Panic SliceBoundsOutOfRange.
Proof.
  intros HN. pose proof candidate_length_nonneg as HL.
  assert (Hpos : 0 <= N) by (pose proof (Z.pow_pos_nonneg 256 L); lia).
  pose proof (len_nonneg wds) as Hlen'.
  unfold WordsToBytes. rewrite Hvalue. result_step.
  rewrite bytelenFromWords_in_range by lia. fold L. cbv beta iota.
  rewrite fill_buffer_eq, len_Bytes by done.
  pose proof (byte_len_exceeds N (Z.to_nat L)) as Hlen.
  rewrite Z2Nat.id in Hlen by done. specialize (Hlen HN).
  by destruct (Z.leb_spec (Z.of_nat (byte_len N)) L) as [? | _]; [lia |].
Qed.

End Candidate.

(** * Further properties of decoding *)

Lemma sample_words_value (k : ECC) (js : list nat) :
  Forall (fun j => (j < 2048)%nat) js ->
  words_value (Sample.codec k) (map Sample.word_at js)
  = Ok (fold_digits (map Z.of_nat js)).
Proof.
  intros Hjs. apply words_value_digits.
  induction Hjs as [| j js Hj _ IH]; [constructor |].
  simpl. constructor; [| exact IH].
  apply (GetIndex_built k Sample.bank).
  - apply sample_codec_built.
  - apply sample_bank_NoDup.
  - lia.
  - rewrite Nat2Z.id. by apply sample_bank_lookup.
Qed.

Lemma fill_buffer_not_Err (outLen : Z) (buf : list Byte.byte) (e : error) :
  fill_buffer outLen buf ≠ Err e.
Proof.
  unfold fill_buffer, make, slice_from.
  destruct (outLen <? 0); [done |]. result_step.
  by destruct ((outLen - len buf <? 0)
               || (len (replicate (Z.to_nat outLen) Byte.x00) <? outLen - len buf)).
Qed.

(** Past the first loop, the only error [WordsToBytes] returns is the one
    of a verification that failed. *)
Lemma WordsToBytes_Err_after_value
    (c : WordCodec) (wds : list string) (N : Z) (e : error) :
  words_value c wds = Ok N -> WordsToBytes c wds = Err e ->
  ∃ msg buf, e = ChecksumMismatch msg ∧ CheckECC (check c) buf = Invalid msg.
Proof.
  intros Hvalue. unfold WordsToBytes. rewrite Hvalue. result_step.
  destruct (bytelenFromWords (len wds)) as [outLen flex].
  destruct (fill_buffer outLen (Bytes N)) as [toCheck | e' | p] eqn:Hfill;
    [| by apply fill_buffer_not_Err in Hfill | done].
  result_step. unfold verify.
  destruct (CheckECC (check c) toCheck) as [out | msg] eqn:Hfirst; [done |].
  destruct flex.
  - destruct toCheck as [| b rest]; [done |].
    rewrite slice_from_1_cons. result_step.
    destruct (CheckECC (check c) rest) as [out | msg'] eqn:Hsecond; [done |].
    intros [= <-]. by exists msg', rest.
  - intros [= <-]. by exists msg, (toCheck).
Qed.

(** X5: the errors of decoding say what happened: an unrecognized-word error
    names a string of the sequence that the bank does not have, and a
    checksum error carries the message with which the checksum rejected a
    buffer; on a codec built from a bank without repetition no other
    error is returned. *)
Theorem decode_errors_sound
    (k : ECC) (bank : list string) (c : WordCodec) (wds : list string) (e : error) :
  NewCodec k bank = Ok c -> NoDup bank ->
  WordsToBytes c wds = Err e ->
  (∃ w, e = UnrecognizedWord w ∧ w ∈ wds ∧ w ∉ bank)
  ∨ (∃ msg buf, e = ChecksumMismatch msg ∧ CheckECC k buf = Invalid msg).
Proof.
  intros Hbuilt Hnodup Hrun.
  destruct (built_fields k bank c Hbuilt) as (_ & _ & _ & Hcheck).
  destruct (decide (Forall (fun x => x ∈ bank) wds)) as [Hall | Hsome].
  - right. destruct (bank_words_value k bank c Hbuilt Hnodup wds Hall) as (N & HN & _).
    rewrite <- Hcheck. by apply (WordsToBytes_Err_after_value c wds N).
  - left. apply not_Forall_Exists in Hsome; [| intros y; apply _].
    apply Exists_exists in Hsome as (w0 & Hin & Hout).
    destruct (last_absent_split bank wds w0 Hin Hout) as (pre & w & suf & -> & Hw & Hsuf).
    unfold WordsToBytes in Hrun.
    rewrite (words_value_last_absent k bank c Hbuilt Hnodup pre suf w Hw Hsuf) in Hrun.
    injection Hrun as <-. exists w. split; [done |]. split; [| done].
    apply elem_of_app. right. apply list_elem_of_here.
Qed.

Lemma decode_errors_sound_sample :
  (NewCodec Sample.sum_ecc Sample.bank = Ok (Sample.codec Sample.sum_ecc)
   ∧ NoDup Sample.bank
   ∧ WordsToBytes (Sample.codec Sample.sum_ecc) ["cad"; "aca"; "aab"]%string
     = Err (ChecksumMismatch "Checksum does not match"))
  ∧ ((∃ w, ChecksumMismatch "Checksum does not match" = UnrecognizedWord w
           ∧ w ∈ ["cad"; "aca"; "aab"]%string ∧ w ∉ Sample.bank)
     ∨ (∃ msg buf, ChecksumMismatch "Checksum does not match" = ChecksumMismatch msg
                   ∧ CheckECC Sample.sum_ecc buf = Invalid msg)).
Proof.
  assert (Hrun : WordsToBytes (Sample.codec Sample.sum_ecc) ["cad"; "aca"; "aab"]%string
                 = Err (ChecksumMismatch "Checksum does not match")).
  { unfold WordsToBytes.
    change ["cad"; "aca"; "aab"]%string with (map Sample.word_at [515; 32; 1]%nat).
    rewrite (sample_words_value Sample.sum_ecc [515; 32; 1]%nat)
      by (repeat (apply List.Forall_cons; [lia |]); apply List.Forall_nil).
    vm_compute. reflexivity. }
  split.
  - split; [apply sample_codec_built |]. split; [apply sample_bank_NoDup | exact Hrun].
  - apply (decode_errors_sound Sample.sum_ecc Sample.bank (Sample.codec Sample.sum_ecc)
             ["cad"; "aca"; "aab"]%string).
    + apply sample_codec_built.
    + apply sample_bank_NoDup.
    + exact Hrun.
Defined.

(** X6: the bytes [WordsToBytes] returns were accepted by the checksum, on a
    buffer of the length computed from the word count or, with the flag
    set, of one byte less. *)
Theorem decode_output_validated
    (c : WordCodec) (wds : list string) (out : list Byte.byte) :
  WordsToBytes c wds = Ok out ->
  ∃ buf, CheckECC (check c) buf = Valid out
         ∧ (len buf = (bytelenFromWords (len wds)).1
            ∨ ((bytelenFromWords (len wds)).2 = true
               ∧ len buf = (bytelenFromWords (len wds)).1 - 1)).
Proof.
  unfold WordsToBytes.
  destruct (words_value c wds) as [N | e | p]; [| done | done]. result_step.
  destruct (bytelenFromWords (len wds)) as [outLen flex]. cbn [fst snd].
  destruct (fill_buffer outLen (Bytes N)) as [toCheck | e | p] eqn:Hfill;
    [| done | done].
  apply fill_buffer_Ok_len in Hfill as [_ Hlen].
  result_step. unfold verify.
  destruct (CheckECC (check c) toCheck) as [out' | msg] eqn:Hfirst.
  - intros [= <-]. exists toCheck. split; [done | by left].
  - destruct flex; [| done].
    destruct toCheck as [| b rest]; [done |].
    rewrite slice_from_1_cons. result_step.
    destruct (CheckECC (check c) rest) as [out' | msg'] eqn:Hsecond; [| done].
    intros [= <-]. exists rest. split; [done | right].
    split; [done |]. unfold len in *. simpl length in Hlen. lia.
Qed.

Lemma decode_output_validated_sample :
  WordsToBytes (Sample.codec Sample.lensum_ecc) ["caf"; "aca"; "aaa"]%string
  = Ok [Byte.x01; Byte.x02]
  ∧ ∃ buf, CheckECC (check (Sample.codec Sample.lensum_ecc)) buf
           = Valid [Byte.x01; Byte.x02]
           ∧ (len buf = (bytelenFromWords (len ["caf"; "aca"; "aaa"]%string)).1
              ∨ ((bytelenFromWords (len ["caf"; "aca"; "aaa"]%string)).2 = true
                 ∧ len buf
                   = (bytelenFromWords (len ["caf"; "aca"; "aaa"]%string)).1 - 1)).
Proof.
  assert (Hrun : WordsToBytes (Sample.codec Sample.lensum_ecc)
                   ["caf"; "aca"; "aaa"]%string = Ok [Byte.x01; Byte.x02]).
  { unfold WordsToBytes.
    change ["caf"; "aca"; "aaa"]%string with (map Sample.word_at [517; 32; 0]%nat).
    rewrite (sample_words_value Sample.lensum_ecc [517; 32; 0]%nat)
      by (repeat (apply List.Forall_cons; [lia |]); apply List.Forall_nil).
    vm_compute. reflexivity. }
  split; [exact Hrun |].
  apply (decode_output_validated (Sample.codec Sample.lensum_ecc)
           ["caf"; "aca"; "aaa"]%string [Byte.x01; Byte.x02] Hrun).
Defined.

(** X7: the buffer handed to the checksum has exactly the length computed from
    the word count and reads, big-endian, as the integer of the words:
    leading zero bytes are kept. *)
Theorem decode_checks_padded_buffer (c : WordCodec) (wds : list string) (N : Z) :
  words_value c wds = Ok N ->
  11 * len wds <= GoInt.int_max ->
  0 <= N < 256 ^ ((11 * len wds) `div` 8) ->
  ∃ toCheck,
    WordsToBytes c wds = verify (check c) (bytelenFromWords (len wds)).2 toCheck
    ∧ len toCheck = (bytelenFromWords (len wds)).1
    ∧ SetBytes toCheck = N.
Proof.
  intros Hvalue Hrange HN.
  pose proof (candidate_length_nonneg wds) as HL. cbv zeta in HL.
  exists (be_bytes (Z.to_nat ((11 * len wds) `div` 8)) N). split; [| split].
  - by apply WordsToBytes_fits.
  - pose proof (len_nonneg wds).
    rewrite bytelenFromWords_in_range by lia. cbn [fst].
    unfold len at 1. rewrite length_be_bytes. lia.
  - rewrite SetBytes_be_bytes, Z2Nat.id by done. apply Z.mod_small. lia.
Qed.

Lemma decode_checks_padded_buffer_sample :
  (words_value (Sample.codec Sample.sum_ecc) ["cad"; "aca"; "aaa"]%string = Ok 66051
   ∧ 11 * len ["cad"; "aca"; "aaa"]%string <= GoInt.int_max
   ∧ 0 <= 66051 < 256 ^ ((11 * len ["cad"; "aca"; "aaa"]%string) `div` 8))
  ∧ ∃ toCheck,
      WordsToBytes (Sample.codec Sample.sum_ecc) ["cad"; "aca"; "aaa"]%string
      = verify (check (Sample.codec Sample.sum_ecc))
          (bytelenFromWords (len ["cad"; "aca"; "aaa"]%string)).2 toCheck
      ∧ len toCheck = (bytelenFromWords (len ["cad"; "aca"; "aaa"]%string)).1
      ∧ SetBytes toCheck = 66051.
Proof.
  assert (Hvalue : words_value (Sample.codec Sample.sum_ecc)
                     ["cad"; "aca"; "aaa"]%string = Ok 66051).
  { change ["cad"; "aca"; "aaa"]%string with (map Sample.word_at [515; 32; 0]%nat).
    by rewrite (sample_words_value Sample.sum_ecc [515; 32; 0]%nat)
      by (repeat (apply List.Forall_cons; [lia |]); apply List.Forall_nil). }
  assert (Hrange : 11 * len ["cad"; "aca"; "aaa"]%string <= GoInt.int_max)
    by (vm_compute; discriminate).
  assert (HN : 0 <= 66051 < 256 ^ ((11 * len ["cad"; "aca"; "aaa"]%string) `div` 8))
    by (vm_compute; split; [discriminate | reflexivity]).
  split; [exact (conj Hvalue (conj Hrange HN)) |].
  apply (decode_checks_padded_buffer (Sample.codec Sample.sum_ecc)
           ["cad"; "aca"; "aaa"]%string 66051 Hvalue Hrange HN).
Defined.

(** What decoding a non-empty sequence of bank words comes to. *)
Lemma decode_bank_words_cases
    (k : ECC) (bank : list string) (c : WordCodec) (wds : list string) :
  NewCodec k bank = Ok c -> NoDup bank ->
  wds ≠ [] -> Forall (fun x => x ∈ bank) wds ->
  11 * len wds <= GoInt.int_max ->
  ∃ N, words_value c wds = Ok N
       ∧ 0 <= N < 2048 ^ len wds
       ∧ (N < 256 ^ ((11 * len wds) `div` 8) ->
          ∃ buf, WordsToBytes c wds = report (CheckECC k buf))
       ∧ (256 ^ ((11 * len wds) `div` 8) <= N ->
          WordsToBytes c wds = Panic SliceBoundsOutOfRange).
Proof.
  intros Hbuilt Hnodup Hne Hwds Hrange.
  destruct (built_fields k bank c Hbuilt) as (_ & _ & _ & Hcheck).
  destruct (bank_words_value k bank c Hbuilt Hnodup wds Hwds) as (N & HN & Hbound).
  exists N. split; [done |]. split; [done |]. split.
  - intros Hfit.
    rewrite (WordsToBytes_fits c wds N HN Hrange) by (cbv zeta; lia).
    assert (Hlen : 1 <= len wds).
    { destruct wds; [done |]. unfold len. simpl length. lia. }
    pose proof (floor_div_bounds (11 * len wds) 8) as HL.
    destruct (verify_outcome (check c) (bytelenFromWords (len wds)).2
                (be_bytes (Z.to_nat ((11 * len wds) `div` 8)) N)) as (buf & _ & Hrun).
    { intros Hnil. apply (f_equal (@length Byte.byte)) in Hnil.
      rewrite length_be_bytes in Hnil. simpl in Hnil. lia. }
    exists buf. by rewrite <- Hcheck.
  - intros Hbig. by apply (WordsToBytes_too_large c wds N).
Qed.

Lemma report_not_Panic (r : checked) (p : panic) : report r ≠ Panic p.
Proof. by destruct r. Qed.

(** X8: decoding a non-empty sequence of bank words panics exactly when the
    integer of the words does not fit the length computed from their
    count. *)
Theorem decode_panics_iff
    (k : ECC) (bank : list string) (c : WordCodec) (wds : list string) :
  NewCodec k bank = Ok c -> NoDup bank ->
  wds ≠ [] -> Forall (fun x => x ∈ bank) wds ->
  11 * len wds <= GoInt.int_max ->
  ∃ N, words_value c wds = Ok N
       ∧ 0 <= N < 2048 ^ len wds
       ∧ ((∃ p, WordsToBytes c wds = Panic p)
          ↔ 256 ^ ((11 * len wds) `div` 8) <= N).
Proof.
  intros Hbuilt Hnodup Hne Hwds Hrange.
  destruct (decode_bank_words_cases k bank c wds Hbuilt Hnodup Hne Hwds Hrange)
    as (N & HN & Hbound & Hfit & Hbig).
  exists N. split; [done |]. split; [done |]. split.
  - intros [p Hp].
    destruct (Z.le_gt_cases (256 ^ ((11 * len wds) `div` 8)) N) as [? | Hlt]; [done |].
    destruct (Hfit Hlt) as [buf Hrun]. rewrite Hrun in Hp.
    by apply report_not_Panic in Hp.
  - intros Hle. exists SliceBoundsOutOfRange. by apply Hbig.
Qed.

Lemma sample_bank_word_at (j : nat) : (j < 2048)%nat -> Sample.word_at j ∈ Sample.bank.
Proof.
  intros Hj. apply list_elem_of_lookup. exists j. by apply sample_bank_lookup.
Qed.

Lemma decode_panics_iff_sample :
  (NewCodec Sample.sum_ecc Sample.bank = Ok (Sample.codec Sample.sum_ecc)
   ∧ NoDup Sample.bank
   ∧ ["aaa"; "hpp"]%string ≠ []
   ∧ Forall (fun x => x ∈ Sample.bank) ["aaa"; "hpp"]%string
   ∧ 11 * len ["aaa"; "hpp"]%string <= GoInt.int_max)
  ∧ ∃ N, words_value (Sample.codec Sample.sum_ecc) ["aaa"; "hpp"]%string = Ok N
         ∧ 0 <= N < 2048 ^ len ["aaa"; "hpp"]%string
         ∧ ((∃ p, WordsToBytes (Sample.codec Sample.sum_ecc) ["aaa"; "hpp"]%string
                  = Panic p)
            ↔ 256 ^ ((11 * len ["aaa"; "hpp"]%string) `div` 8) <= N).
Proof.
  assert (Hwds : Forall (fun x => x ∈ Sample.bank) ["aaa"; "hpp"]%string).
  { change ["aaa"; "hpp"]%string with (map Sample.word_at [0; 2047]%nat).
    repeat (apply List.Forall_cons; [apply sample_bank_word_at; lia |]).
    apply List.Forall_nil. }
  assert (Hrange : 11 * len ["aaa"; "hpp"]%string <= GoInt.int_max)
    by (vm_compute; discriminate).
  split.
  - split; [apply sample_codec_built |]. split; [apply sample_bank_NoDup |].
    split; [discriminate |]. exact (conj Hwds Hrange).
  - apply (decode_panics_iff Sample.sum_ecc Sample.bank (Sample.codec Sample.sum_ecc)
             ["aaa"; "hpp"]%string).
    + apply sample_codec_built.
    + apply sample_bank_NoDup.
    + discriminate.
    + exact Hwds.
    + exact Hrange.
Defined.

(** X9: a sequence of 8, 16, 24, ... bank words never makes decoding panic:
    its integer always fits, and the outcome is what the checksum makes of
    a buffer. *)
Theorem eight_word_blocks_never_panic
    (k : ECC) (bank : list string) (c : WordCodec) (wds : list string) (m : Z) :
  NewCodec k bank = Ok c -> NoDup bank ->
  Forall (fun x => x ∈ bank) wds ->
  1 <= m -> len wds = 8 * m -> 11 * len wds <= GoInt.int_max ->
  ∃ buf, WordsToBytes c wds = report (CheckECC k buf).
Proof.
  intros Hbuilt Hnodup Hwds Hm Hlen Hrange.
  assert (Hne : wds ≠ []).
  { intros ->. unfold len in Hlen. simpl in Hlen. lia. }
  destruct (decode_bank_words_cases k bank c wds Hbuilt Hnodup Hne Hwds Hrange)
    as (N & _ & Hbound & Hfit & _).
  apply Hfit. rewrite Hlen in *.
  replace (11 * (8 * m)) with (11 * m * 8) by lia.
  rewrite Z.div_mul by lia.
  replace (256 ^ (11 * m)) with (2048 ^ (8 * m)); [lia |].
  change 2048 with (2 ^ 11). change 256 with (2 ^ 8).
  rewrite <- !Z.pow_mul_r by lia. f_equal. lia.
Qed.

Lemma eight_word_blocks_never_panic_sample :
  (NewCodec Sample.sum_ecc Sample.bank = Ok (Sample.codec Sample.sum_ecc)
   ∧ NoDup Sample.bank
   ∧ Forall (fun x => x ∈ Sample.bank) (replicate 8 (Sample.word_at 2047))
   ∧ 1 <= 1 ∧ len (replicate 8 (Sample.word_at 2047)) = 8 * 1
   ∧ 11 * len (replicate 8 (Sample.word_at 2047)) <= GoInt.int_max)
  ∧ ∃ buf, WordsToBytes (Sample.codec Sample.sum_ecc)
             (replicate 8 (Sample.word_at 2047))
           = report (CheckECC Sample.sum_ecc buf).
Proof.
  assert (Hwds : Forall (fun x => x ∈ Sample.bank) (replicate 8 (Sample.word_at 2047))).
  { change (replicate 8 (Sample.word_at 2047))
      with (map Sample.word_at (replicate 8 2047%nat)).
    repeat (apply List.Forall_cons; [apply sample_bank_word_at; lia |]).
    apply List.Forall_nil. }
  assert (Hrange : 11 * len (replicate 8 (Sample.word_at 2047)) <= GoInt.int_max)
    by (vm_compute; discriminate).
  split.
  - split; [apply sample_codec_built |]. split; [apply sample_bank_NoDup |].
    split; [exact Hwds |]. split; [lia |]. split; [reflexivity | exact Hrange].
  - apply (eight_word_blocks_never_panic Sample.sum_ecc Sample.bank
             (Sample.codec Sample.sum_ecc) _ 1).
    + apply sample_codec_built.
    + apply sample_bank_NoDup.
    + exact Hwds.
    + lia.
    + reflexivity.
    + exact Hrange.
Defined.

(** X10: once the first verification has failed with the flag set, the retry
    drops the first byte of the buffer whatever it holds: the outcome only
    depends on the integer of the words modulo [256 ^ (L - 1)], where [L]
    is the length computed from the word count. *)
Theorem retry_ignores_leading_byte
    (c : WordCodec) (wds : list string) (N : Z) (err : string) :
  words_value c wds = Ok N ->
  wds ≠ [] -> 11 * len wds <= GoInt.int_max ->
  0 <= N < 256 ^ ((11 * len wds) `div` 8) ->
  (bytelenFromWords (len wds)).2 = true ->
  CheckECC (check c) (be_bytes (Z.to_nat ((11 * len wds) `div` 8)) N) = Invalid err ->
  WordsToBytes c wds =
    report (CheckECC (check c)
              (be_bytes (Z.to_nat ((11 * len wds) `div` 8 - 1))
                 (N `mod` 256 ^ ((11 * len wds) `div` 8 - 1)))).
Proof.
  intros Hvalue Hne Hrange HN Hflex Hfirst.
  rewrite (WordsToBytes_fits c wds N Hvalue Hrange) by (cbv zeta; lia).
  rewrite Hflex.
  assert (Hlen : 1 <= len wds).
  { destruct wds; [done |]. unfold len. simpl length. lia. }
  pose proof (floor_div_bounds (11 * len wds) 8) as HL.
  set (L := (11 * len wds) `div` 8) in *.
  destruct (Z.to_nat L) as [| L'] eqn:HL'; [lia |].
  replace (Z.to_nat (L - 1)) with L' by lia.
  replace (L - 1) with (Z.of_nat L') by lia.
  rewrite be_bytes_mod.
  rewrite be_bytes_cons in Hfirst |- *.
  unfold verify. rewrite Hfirst. by rewrite slice_from_1_cons.
Qed.

Lemma retry_ignores_leading_byte_sample :
  (words_value (Sample.codec Sample.sum_ecc) ["cad"; "aca"; "abe"]%string
   = Ok 83952131
   ∧ ["cad"; "aca"; "abe"]%string ≠ []
   ∧ 11 * len ["cad"; "aca"; "abe"]%string <= GoInt.int_max
   ∧ 0 <= 83952131 < 256 ^ ((11 * len ["cad"; "aca"; "abe"]%string) `div` 8)
   ∧ (bytelenFromWords (len ["cad"; "aca"; "abe"]%string)).2 = true
   ∧ CheckECC (check (Sample.codec Sample.sum_ecc))
       (be_bytes (Z.to_nat ((11 * len ["cad"; "aca"; "abe"]%string) `div` 8)) 83952131)
     = Invalid "Checksum does not match")
  ∧ WordsToBytes (Sample.codec Sample.sum_ecc) ["cad"; "aca"; "abe"]%string
    = report (CheckECC (check (Sample.codec Sample.sum_ecc))
                (be_bytes (Z.to_nat ((11 * len ["cad"; "aca"; "abe"]%string) `div` 8 - 1))
                   (83952131
                    `mod` 256 ^ ((11 * len ["cad"; "aca"; "abe"]%string) `div` 8 - 1)))).
Proof.
  assert (Hvalue : words_value (Sample.codec Sample.sum_ecc)
                     ["cad"; "aca"; "abe"]%string = Ok 83952131).
  { change ["cad"; "aca"; "abe"]%string with (map Sample.word_at [515; 32; 20]%nat).
    by rewrite (sample_words_value Sample.sum_ecc [515; 32; 20]%nat)
      by (repeat (apply List.Forall_cons; [lia |]); apply List.Forall_nil). }
  assert (Hrange : 11 * len ["cad"; "aca"; "abe"]%string <= GoInt.int_max)
    by (vm_compute; discriminate).
  assert (HN : 0 <= 83952131
               < 256 ^ ((11 * len ["cad"; "aca"; "abe"]%string) `div` 8))
    by (vm_compute; split; [discriminate | reflexivity]).
  assert (Hflex : (bytelenFromWords (len ["cad"; "aca"; "abe"]%string)).2 = true)
    by (vm_compute; reflexivity).
  assert (Hfirst : CheckECC (check (Sample.codec Sample.sum_ecc))
                     (be_bytes
                        (Z.to_nat ((11 * len ["cad"; "aca"; "abe"]%string) `div` 8))
                        83952131)
                   = Invalid "Checksum does not match")
    by (vm_compute; reflexivity).
  split.
  - split; [exact Hvalue |]. split; [discriminate |].
    exact (conj Hrange (conj HN (conj Hflex Hfirst))).
  - apply (retry_ignores_leading_byte (Sample.codec Sample.sum_ecc)
             ["cad"; "aca"; "abe"]%string 83952131 "Checksum does not match").
    + exact Hvalue.
    + discriminate.
    + exact Hrange.
    + exact HN.
    + exact Hflex.
    + exact Hfirst.
Defined.

(** * Further properties of encoding *)

(** X11: two buffers of the same length never encode to the same words. *)
Theorem encode_injective_same_length
    (k : ECC) (bank : list string) (c : WordCodec) (a b : list Byte.byte) :
  NewCodec k bank = Ok c -> NoDup bank ->
  ecc_contract k ->
  len a = len b ->
  8 * len (AddECC k a) + 10 <= GoInt.int_max ->
  BytesToWords c a = BytesToWords c b ->
  a = b.
Proof.
  intros Hbuilt Hnodup (width & Hk) Hlen Hrange Heq.
  destruct (Hk a) as [Hca Hla]. destruct (Hk b) as [Hcb Hlb].
  assert (Hrange' : 8 * len (AddECC k b) + 10 <= GoInt.int_max) by lia.
  destruct (encode_then_value k bank c Hbuilt Hnodup a Hrange) as (ws & Hwa & _ & Hva).
  destruct (encode_then_value k bank c Hbuilt Hnodup b Hrange') as (ws' & Hwb & _ & Hvb).
  rewrite Hwa, Hwb in Heq. injection Heq as <-.
  rewrite Hva in Hvb. injection Hvb as HN.
  assert (Hbuf : AddECC k a = AddECC k b).
  { rewrite <- (be_bytes_SetBytes (AddECC k a)), <- (be_bytes_SetBytes (AddECC k b)).
    rewrite HN. f_equal. unfold len in *. lia. }
  rewrite Hbuf in Hca. rewrite Hca in Hcb. by injection Hcb.
Qed.

Lemma encode_injective_same_length_sample :
  (NewCodec Sample.sum_ecc Sample.bank = Ok (Sample.codec Sample.sum_ecc)
   ∧ NoDup Sample.bank
   ∧ ecc_contract Sample.sum_ecc
   ∧ len [Byte.x01; Byte.x02] = len [Byte.x01; Byte.x02]
   ∧ 8 * len (AddECC Sample.sum_ecc [Byte.x01; Byte.x02]) + 10 <= GoInt.int_max
   ∧ BytesToWords (Sample.codec Sample.sum_ecc) [Byte.x01; Byte.x02]
     = BytesToWords (Sample.codec Sample.sum_ecc) [Byte.x01; Byte.x02])
  ∧ [Byte.x01; Byte.x02] = [Byte.x01; Byte.x02].
Proof.
  assert (Hrange : 8 * len (AddECC Sample.sum_ecc [Byte.x01; Byte.x02]) + 10
                   <= GoInt.int_max) by (vm_compute; discriminate).
  split.
  - split; [apply sample_codec_built |]. split; [apply sample_bank_NoDup |].
    split; [apply check_with_contract |].
    split; [reflexivity |]. split; [exact Hrange | reflexivity].
  - apply (encode_injective_same_length Sample.sum_ecc Sample.bank
             (Sample.codec Sample.sum_ecc)).
    + apply sample_codec_built.
    + apply sample_bank_NoDup.
    + apply check_with_contract.
    + reflexivity.
    + exact Hrange.
    + reflexivity.
Defined.

Lemma SetBytes_zero_cons (buf : list Byte.byte) :
  SetBytes (Byte.x00 :: buf) = SetBytes buf.
Proof. reflexivity. Qed.

(** X12: across lengths encoding is not injective: a zero byte in front of the
    augmented buffer does not show in the words when the longer buffer
    needs no more words. *)
Theorem leading_zero_invisible
    (k : ECC) (bank : list string) (c : WordCodec) (a b : list Byte.byte) :
  NewCodec k bank = Ok c ->
  AddECC k b = Byte.x00 :: AddECC k a ->
  wordlenFromBytes (len (AddECC k a) + 1) = wordlenFromBytes (len (AddECC k a)) ->
  BytesToWords c b = BytesToWords c a.
Proof.
  intros Hbuilt Hzero Hcount.
  destruct (built_fields k bank c Hbuilt) as (_ & _ & _ & Hcheck).
  unfold BytesToWords. rewrite Hcheck, Hzero, SetBytes_zero_cons.
  replace (len (Byte.x00 :: AddECC k a)) with (len (AddECC k a) + 1)
    by (unfold len; simpl length; lia).
  by rewrite Hcount.
Qed.

Lemma leading_zero_invisible_sample :
  (NewCodec Sample.sum_ecc Sample.bank = Ok (Sample.codec Sample.sum_ecc)
   ∧ AddECC Sample.sum_ecc [Byte.x00; Byte.x01; Byte.x02]
     = Byte.x00 :: AddECC Sample.sum_ecc [Byte.x01; Byte.x02]
   ∧ wordlenFromBytes (len (AddECC Sample.sum_ecc [Byte.x01; Byte.x02]) + 1)
     = wordlenFromBytes (len (AddECC Sample.sum_ecc [Byte.x01; Byte.x02])))
  ∧ BytesToWords (Sample.codec Sample.sum_ecc) [Byte.x00; Byte.x01; Byte.x02]
    = BytesToWords (Sample.codec Sample.sum_ecc) [Byte.x01; Byte.x02].
Proof.
  split.
  - split; [apply sample_codec_built |]. split; reflexivity.
  - apply (leading_zero_invisible Sample.sum_ecc Sample.bank).
    + apply sample_codec_built.
    + reflexivity.
    + reflexivity.
Defined.

Lemma bank_words_unique (bank wds ws : list string) (ds : list Z) :
  Forall2 (fun w d => bank !! Z.to_nat d = Some w) wds ds ->
  Forall2 (fun w d => bank !! Z.to_nat d = Some w) ws ds ->
  ws = wds.
Proof.
  intros Hwds. revert ws. induction Hwds as [| w d wds ds Hw _ IH]; intros ws Hws.
  - by inversion Hws.
  - inversion Hws as [| w' d' ws' ds' Hw' Hws']; subst.
    rewrite Hw in Hw'. injection Hw' as <-. f_equal. by apply IH.
Qed.

(** Encoding a payload whose augmented buffer reads as the integer of
    [wds] and needs as many words gives [wds] back. *)
Lemma encode_of_decoded_buffer
    (k : ECC) (bank : list string) (c : WordCodec)
    (wds : list string) (ds : list Z) (out : list Byte.byte) :
  NewCodec k bank = Ok c -> NoDup bank ->
  Forall2 (fun w d => GetIndex c w = Ok d) wds ds ->
  wordlenFromBytes (len (AddECC k out)) = len wds ->
  SetBytes (AddECC k out) = fold_digits ds ->
  BytesToWords c out = Ok wds.
Proof.
  intros Hbuilt Hnodup Hds Hcount HN.
  destruct (built_fields k bank c Hbuilt) as (_ & _ & _ & Hcheck).
  destruct (indexed_digits_range k bank c Hbuilt Hnodup wds ds Hds) as [Hr Hb].
  unfold BytesToWords. rewrite Hcheck, Hcount, HN.
  unfold len. rewrite Nat2Z.id.
  destruct (encode_loop_digits k bank c Hbuilt Hnodup (length wds) (fold_digits ds) [])
    as (ws & -> & Hws).
  rewrite (Forall2_length _ _ _ Hds), digits_of_fold in Hws by done.
  simpl. f_equal. by apply (bank_words_unique bank wds ws ds).
Qed.

Lemma check_with_strict (code_of : list Byte.byte -> Byte.byte)
    (buf y : list Byte.byte) :
  Sample.check_with code_of buf = Valid y -> y ++ [code_of y] = buf.
Proof.
  unfold Sample.check_with, Sample.split_last.
  destruct (rev buf) as [| code rdata] eqn:Hrev; [done |].
  destruct (Byte.eqb (code_of (rev rdata)) code) eqn:Heq; [| done].
  intros [= <-]. apply Byte.byte_dec_bl in Heq. rewrite Heq.
  apply (f_equal (@rev Byte.byte)) in Hrev. rewrite rev_involutive in Hrev.
  by rewrite Hrev.
Qed.

(** X13: with a checksum that accepts nothing but what [AddECC] produces, the
    payload decoded from a word sequence encodes to that sequence again,
    unless the payload came from the retry and the byte dropped was not
    zero. *)
Theorem reencode_decoded
    (k : ECC) (bank : list string) (c : WordCodec)
    (wds : list string) (out : list Byte.byte) :
  NewCodec k bank = Ok c -> NoDup bank ->
  (∀ buf y, CheckECC k buf = Valid y -> AddECC k y = buf) ->
  11 * len wds + 10 <= GoInt.int_max ->
  WordsToBytes c wds = Ok out ->
  BytesToWords c out = Ok wds
  ∨ ((bytelenFromWords (len wds)).2 = true
     ∧ len (AddECC k out) = (11 * len wds) `div` 8 - 1
     ∧ ∃ N, words_value c wds = Ok N ∧ 256 ^ ((11 * len wds) `div` 8 - 1) <= N).
Proof.
  intros Hbuilt Hnodup Hstrict Hrange Hrun.
  destruct (built_fields k bank c Hbuilt) as (_ & _ & _ & Hcheck).
  pose proof (len_nonneg wds) as Hlen.
  assert (Hrange' : 11 * len wds <= GoInt.int_max) by lia.
  destruct (words_value c wds) as [N | e | p] eqn:Hvalue;
    [| by unfold WordsToBytes in Hrun; rewrite Hvalue in Hrun ..].
  destruct (words_value_Ok_inv c wds N Hvalue) as (ds & Hds & HN).
  destruct (indexed_digits_range k bank c Hbuilt Hnodup wds ds Hds) as [Hr _].
  pose proof (fold_digits_range ds Hr) as Hbound. rewrite <- HN in Hbound.
  pose proof (floor_div_bounds (11 * len wds) 8) as HL.
  set (L := (11 * len wds) `div` 8) in *.
  destruct (Z.le_gt_cases (256 ^ L) N) as [Hbig | Hfit].
  { by rewrite (WordsToBytes_too_large c wds N Hvalue Hrange' Hbig) in Hrun. }
  rewrite (WordsToBytes_fits c wds N Hvalue Hrange') in Hrun by (cbv zeta; fold L; lia).
  fold L in Hrun. rewrite Hcheck in Hrun. unfold verify in Hrun.
  destruct (CheckECC k (be_bytes (Z.to_nat L) N)) as [out' | msg] eqn:Hfirst.
  - injection Hrun as ->. left. apply Hstrict in Hfirst.
    apply (encode_of_decoded_buffer k bank c wds ds out Hbuilt Hnodup Hds).
    + rewrite Hfirst. unfold len at 1. rewrite length_be_bytes, Z2Nat.id by lia.
      by apply wordlen_of_candidate_length.
    + rewrite Hfirst, SetBytes_be_bytes, Z2Nat.id, <- HN by lia.
      apply Z.mod_small. lia.
  - destruct ((bytelenFromWords (len wds)).2) eqn:Hflex; [| done].
    destruct (Z.to_nat L) as [| L'] eqn:HL'; [done |].
    rewrite be_bytes_cons, slice_from_1_cons in Hrun.
    cbn [mbind result_bind] in Hrun.
    destruct (CheckECC k (be_bytes L' N)) as [out' | msg'] eqn:Hsecond; [| done].
    injection Hrun as ->. apply Hstrict in Hsecond.
    assert (HlenL : len (AddECC k out) = L - 1).
    { rewrite Hsecond. unfold len at 1. rewrite length_be_bytes. lia. }
    destruct (Z.le_gt_cases (256 ^ (L - 1)) N) as [Htop | Hlow].
    + right. split; [done |]. split; [done |]. by exists N.
    + left. apply (encode_of_decoded_buffer k bank c wds ds out Hbuilt Hnodup Hds).
      * rewrite HlenL.
        rewrite bytelenFromWords_in_range in Hflex by lia. cbn [snd] in Hflex.
        by apply bool_decide_eq_true in Hflex.
      * rewrite Hsecond, SetBytes_be_bytes, <- HN.
        replace (Z.of_nat L') with (L - 1) by lia.
        apply Z.mod_small. lia.
Qed.

Lemma reencode_decoded_sample :
  (NewCodec Sample.sum_ecc Sample.bank = Ok (Sample.codec Sample.sum_ecc)
   ∧ NoDup Sample.bank
   ∧ (∀ buf y, CheckECC Sample.sum_ecc buf = Valid y -> AddECC Sample.sum_ecc y = buf)
   ∧ 11 * len ["cad"; "aca"; "aaa"]%string + 10 <= GoInt.int_max
   ∧ WordsToBytes (Sample.codec Sample.sum_ecc) ["cad"; "aca"; "aaa"]%string
     = Ok [Byte.x00; Byte.x01; Byte.x02])
  ∧ (BytesToWords (Sample.codec Sample.sum_ecc) [Byte.x00; Byte.x01; Byte.x02]
     = Ok ["cad"; "aca"; "aaa"]%string
     ∨ ((bytelenFromWords (len ["cad"; "aca"; "aaa"]%string)).2 = true
        ∧ len (AddECC Sample.sum_ecc [Byte.x00; Byte.x01; Byte.x02])
          = (11 * len ["cad"; "aca"; "aaa"]%string) `div` 8 - 1
        ∧ ∃ N, words_value (Sample.codec Sample.sum_ecc) ["cad"; "aca"; "aaa"]%string
               = Ok N
               ∧ 256 ^ ((11 * len ["cad"; "aca"; "aaa"]%string) `div` 8 - 1) <= N)).
Proof.
  assert (Hstrict : ∀ buf y, CheckECC Sample.sum_ecc buf = Valid y ->
                             AddECC Sample.sum_ecc y = buf).
  { intros buf y Hy. by apply (check_with_strict Sample.sum_code). }
  assert (Hrange : 11 * len ["cad"; "aca"; "aaa"]%string + 10 <= GoInt.int_max)
    by (vm_compute; discriminate).
  assert (Hrun : WordsToBytes (Sample.codec Sample.sum_ecc) ["cad"; "aca"; "aaa"]%string
                 = Ok [Byte.x00; Byte.x01; Byte.x02]).
  { unfold WordsToBytes.
    change ["cad"; "aca"; "aaa"]%string with (map Sample.word_at [515; 32; 0]%nat).
    rewrite (sample_words_value Sample.sum_ecc [515; 32; 0]%nat)
      by (repeat (apply List.Forall_cons; [lia |]); apply List.Forall_nil).
    vm_compute. reflexivity. }
  split.
  - split; [apply sample_codec_built |]. split; [apply sample_bank_NoDup |].
    exact (conj Hstrict (conj Hrange Hrun)).
  - apply (reencode_decoded Sample.sum_ecc Sample.bank (Sample.codec Sample.sum_ecc)).
    + apply sample_codec_built.
    + apply sample_bank_NoDup.
    + exact Hstrict.
    + exact Hrange.
    + exact Hrun.
Defined.

(** * Loading a bank *)

Section Trim.

Implicit Types (s t body lead trail : string) (c a z : Ascii.ascii).

Lemma trim_left_spaces lead s :
  all_space lead = true -> trim_left (lead +:+ s) = trim_left s.
Proof.
  induction lead as [| c lead IH]; intros Hlead; [done |].
  simpl in Hlead. apply andb_true_iff in Hlead as [Hc Hlead].
  change (String c lead +:+ s) with (String c (lead +:+ s)).
  simpl. rewrite Hc. by apply IH.
Qed.

Lemma trim_left_stops s a :
  first_byte s = Some a -> asciiSpace a = false -> trim_left s = s.
Proof.
  destruct s as [| c rest]; [done |]. intros [= ->] Ha. simpl. by rewrite Ha.
Qed.

Lemma trim_right_blank t : all_space t = true -> trim_right t = EmptyString.
Proof.
  induction t as [| c t IH]; intros Ht; [done |].
  simpl in Ht. apply andb_true_iff in Ht as [Hc Ht].
  simpl. by rewrite IH, Hc.
Qed.

Lemma trim_right_spaces s trail :
  all_space trail = true -> trim_right (s +:+ trail) = trim_right s.
Proof.
  intros Htrail. induction s as [| c s IH].
  - change (EmptyString +:+ trail) with trail. by apply trim_right_blank.
  - change (String c s +:+ trail) with (String c (s +:+ trail)).
    simpl. by rewrite IH.
Qed.

Lemma trim_right_stops s z :
  last_byte s = Some z -> asciiSpace z = false -> trim_right s = s.
Proof.
  induction s as [| c s IH]; [done |]. intros Hlast Hz.
  destruct s as [| c' s'].
  - injection Hlast as ->. simpl. by rewrite Hz.
  - change (last_byte (String c (String c' s'))) with (last_byte (String c' s')) in Hlast.
    change (trim_right (String c (String c' s')))
      with (match trim_right (String c' s') with
            | EmptyString => if asciiSpace c then EmptyString else String c EmptyString
            | t => String c t
            end).
    by rewrite (IH Hlast Hz).
Qed.

Lemma first_byte_app s t a : first_byte s = Some a -> first_byte (s +:+ t) = Some a.
Proof. by destruct s. Qed.

Lemma plain_inv c : plain c = true -> asciiSpace c = false ∧ non_ascii c = false.
Proof.
  unfold plain. intros H. apply andb_true_iff in H as [H1 H2].
  by apply negb_true_iff in H1, H2.
Qed.

(** Text that starts and ends with a plain byte comes out of
    [TrimSpace] without the white space around it, and unchanged inside. *)
Lemma TrimSpace_wrapped (unicode_trim : string -> string) lead body trail a z :
  all_space lead = true -> all_space trail = true ->
  first_byte body = Some a -> plain a = true ->
  last_byte body = Some z -> plain z = true ->
  TrimSpace unicode_trim (lead +:+ body +:+ trail) = body.
Proof.
  intros Hlead Htrail Ha Hpa Hz Hpz.
  apply plain_inv in Hpa as [Hsa Hna]. apply plain_inv in Hpz as [Hsz Hnz].
  unfold TrimSpace. rewrite trim_left_spaces by done.
  rewrite (trim_left_stops (body +:+ trail) a) by (by apply first_byte_app || done).
  rewrite trim_right_spaces by done.
  rewrite (trim_right_stops body z) by done.
  rewrite Ha, Hz. simpl. by rewrite Hna, Hnz.
Qed.

Lemma trim_left_blank s : all_space s = true -> trim_left s = EmptyString.
Proof.
  induction s as [| c s IH]; intros Hs; [done |].
  simpl in Hs. apply andb_true_iff in Hs as [Hc Hs]. simpl. rewrite Hc. by apply IH.
Qed.

Lemma TrimSpace_blank (unicode_trim : string -> string) s :
  all_space s = true -> TrimSpace unicode_trim s = EmptyString.
Proof.
  intros Hs. unfold TrimSpace. by rewrite trim_left_blank.
Qed.

End Trim.

Section Splitting.

Variable sep : Ascii.ascii.
Implicit Types (s t w : string) (ws : list string).

Lemma Split_nonempty s : Split s sep ≠ [].
Proof.
  destruct s as [| c rest]; [done |]. simpl.
  destruct (Ascii.eqb c sep); [done |]. by destruct (Split rest sep).
Qed.

Lemma Split_without_sep w : has_byte sep w = false -> Split w sep = [w].
Proof.
  induction w as [| c w IH]; [done |]. simpl. intros Hw.
  apply orb_false_iff in Hw as [Hc Hw]. by rewrite Hc, IH.
Qed.

Lemma Split_piece w t :
  has_byte sep w = false -> Split (w +:+ String sep t) sep = w :: Split t sep.
Proof.
  induction w as [| c w IH]; intros Hw.
  - change (EmptyString +:+ String sep t) with (String sep t).
    simpl. by rewrite Ascii.eqb_refl.
  - simpl in Hw. apply orb_false_iff in Hw as [Hc Hw].
    change (String c w +:+ String sep t) with (String c (w +:+ String sep t)).
    simpl. by rewrite Hc, IH.
Qed.

(** Splitting what was joined gives the pieces back. *)
Lemma Split_concat ws :
  ws ≠ [] -> Forall (fun w => has_byte sep w = false) ws ->
  Split (String.concat (String sep EmptyString) ws) sep = ws.
Proof.
  intros Hne Hws. induction Hws as [| w ws Hw Hws IH]; [done |].
  destruct ws as [| w' ws'].
  - simpl. by apply Split_without_sep.
  - change (String.concat (String sep EmptyString) (w :: w' :: ws'))
      with (w +:+ String sep (String.concat (String sep EmptyString) (w' :: ws'))).
    rewrite Split_piece by done. f_equal. by apply IH.
Qed.

(** Joining the pieces of a text gives the text back. *)
Lemma concat_Split s : String.concat (String sep EmptyString) (Split s sep) = s.
Proof.
  induction s as [| c s IH]; [done |]. simpl.
  pose proof (Split_nonempty s) as Hne.
  destruct (Split s sep) as [| piece more]; [done |].
  destruct (Ascii.eqb_spec c sep) as [-> | Hc].
  - change (String.concat (String sep EmptyString) (EmptyString :: piece :: more))
      with (String sep (String.concat (String sep EmptyString) (piece :: more))).
    by rewrite IH.
  - destruct more as [| piece' more'].
    + simpl in *. by rewrite IH.
    + change (String.concat (String sep EmptyString) (String c piece :: piece' :: more'))
        with (String c (String.concat (String sep EmptyString) (piece :: piece' :: more'))).
      by rewrite IH.
Qed.

Lemma Split_pieces_without_sep s :
  Forall (fun w => has_byte sep w = false) (Split s sep).
Proof.
  induction s as [| c s IH]; [by repeat constructor |]. simpl.
  destruct (Ascii.eqb c sep) eqn:Hc; [by constructor |].
  destruct (Split s sep) as [| piece more]; [by repeat constructor; simpl; rewrite Hc |].
  apply Forall_cons in IH as [Hp Hm]. constructor; [| done].
  simpl. by rewrite Hc, Hp.
Qed.

End Splitting.

Section Loading.

Context {File : Type}.
Variables (os : OS File) (unicode_trim : string -> string) (crc : ECC).
Variables (bank : string) (f : File) (data : string).
Hypothesis Hopen : os_Open os ("wordlist/" +:+ bank +:+ ".txt") = Done f.
Hypothesis Hread : ioutil_ReadAll os f = Done data.

Lemma loadBank_read :
  loadBank os unicode_trim bank = Done (Split (TrimSpace unicode_trim data) newline).
Proof. unfold loadBank, getData. by rewrite Hopen, Hread. Qed.

Lemma LoadCodec_read :
  LoadCodec os unicode_trim crc bank
  = Done (NewCodec crc (Split (TrimSpace unicode_trim data) newline)).
Proof. unfold LoadCodec. by rewrite loadBank_read. Qed.

End Loading.

Lemma string_app_assoc (s t u : string) : (s +:+ t) +:+ u = s +:+ (t +:+ u).
Proof.
  induction s as [| c s IH]; [done |].
  change (String c s +:+ t) with (String c (s +:+ t)).
  change (String c (s +:+ t) +:+ u) with (String c ((s +:+ t) +:+ u)).
  by rewrite IH.
Qed.

Lemma last_byte_app (s t : string) (z : Ascii.ascii) :
  last_byte t = Some z -> last_byte (s +:+ t) = Some z.
Proof.
  intros Ht. induction s as [| c s IH]; [done |].
  change (String c s +:+ t) with (String c (s +:+ t)).
  destruct (s +:+ t) as [| c' r]; [discriminate IH | exact IH].
Qed.

Lemma has_byte_app (sep : Ascii.ascii) (s t : string) :
  has_byte sep (s +:+ t) = has_byte sep s || has_byte sep t.
Proof.
  induction s as [| c s IH]; [done |].
  change (String c s +:+ t) with (String c (s +:+ t)).
  simpl. by rewrite IH, orb_assoc.
Qed.

Lemma first_byte_concat (sepstr w : string) (rest : list string) (a : Ascii.ascii) :
  first_byte w = Some a -> first_byte (String.concat sepstr (w :: rest)) = Some a.
Proof.
  intros Hw. destruct rest as [| w' rest']; [done |].
  change (String.concat sepstr (w :: w' :: rest'))
    with (w +:+ (sepstr +:+ String.concat sepstr (w' :: rest'))).
  by apply first_byte_app.
Qed.

Lemma last_byte_concat_snoc (sepstr wn : string) (front : list string) (z : Ascii.ascii) :
  last_byte wn = Some z ->
  last_byte (String.concat sepstr (front ++ [wn])) = Some z.
Proof.
  intros Hz. induction front as [| w front IH]; [done |].
  destruct (front ++ [wn]) as [| w' rest'] eqn:Hrest.
  { by destruct front. }
  change ((w :: front) ++ [wn]) with (w :: (front ++ [wn])). rewrite Hrest.
  change (String.concat sepstr (w :: w' :: rest'))
    with (w +:+ (sepstr +:+ String.concat sepstr (w' :: rest'))).
  by apply last_byte_app, last_byte_app.
Qed.

Lemma solid_inv (w : string) :
  solid w = true ->
  (∃ a, first_byte w = Some a ∧ plain a = true)
  ∧ (∃ z, last_byte w = Some z ∧ plain z = true)
  ∧ has_byte newline w = false.
Proof.
  unfold solid. intros H.
  apply andb_true_iff in H as [H Hn]. apply andb_true_iff in H as [Ha Hz].
  apply negb_true_iff in Hn.
  destruct (first_byte w) as [a |]; [| discriminate Ha].
  destruct (last_byte w) as [z |]; [| discriminate Hz].
  simpl in Ha, Hz. split; [by exists a |]. split; [by exists z | exact Hn].
Qed.

(** The words of a text of lines with white space around it. *)
Lemma lines_of_wrapped_text (unicode_trim : string -> string)
    (lead trail : string) (ws : list string) (a z : Ascii.ascii) :
  all_space lead = true -> all_space trail = true ->
  Forall (fun w => has_byte newline w = false) ws ->
  first_byte (String.concat (String newline EmptyString) ws) = Some a ->
  plain a = true ->
  last_byte (String.concat (String newline EmptyString) ws) = Some z ->
  plain z = true ->
  Split (TrimSpace unicode_trim
           (lead +:+ String.concat (String newline EmptyString) ws +:+ trail)) newline
  = ws.
Proof.
  intros Hlead Htrail Hws Ha Hpa Hz Hpz.
  rewrite (TrimSpace_wrapped unicode_trim lead _ trail a z) by done.
  apply Split_concat; [| done]. by intros ->.
Qed.

Lemma solid_lines_ends (ws : list string) :
  ws ≠ [] -> Forall (fun w => solid w = true) ws ->
  Forall (fun w => has_byte newline w = false) ws
  ∧ (∃ a, first_byte (String.concat (String newline EmptyString) ws) = Some a
          ∧ plain a = true)
  ∧ (∃ z, last_byte (String.concat (String newline EmptyString) ws) = Some z
          ∧ plain z = true).
Proof.
  intros Hne Hws. split; [| split].
  - eapply Forall_impl; [exact Hws |]. intros w Hw. by apply solid_inv in Hw as (_ & _ & ?).
  - destruct ws as [| w rest]; [done |].
    apply Forall_cons in Hws as [Hw _].
    apply solid_inv in Hw as ((a & Ha & Hpa) & _). exists a.
    split; [by apply first_byte_concat | done].
  - destruct (exists_last Hne) as (front & wn & ->).
    apply Forall_app in Hws as [_ Hwn]. apply Forall_cons in Hwn as [Hwn _].
    apply solid_inv in Hwn as (_ & (z & Hz & Hpz) & _). exists z.
    split; [by apply last_byte_concat_snoc | done].
Qed.

Lemma solid_lines_read (unicode_trim : string -> string)
    (lead trail : string) (ws : list string) :
  all_space lead = true -> all_space trail = true ->
  ws ≠ [] -> Forall (fun w => solid w = true) ws ->
  Split (TrimSpace unicode_trim
           (lead +:+ String.concat (String newline EmptyString) ws +:+ trail)) newline
  = ws.
Proof.
  intros Hlead Htrail Hne Hws.
  destruct (solid_lines_ends ws Hne Hws) as (Hnl & (a & Ha & Hpa) & (z & Hz & Hpz)).
  by apply (lines_of_wrapped_text unicode_trim lead trail ws a z).
Qed.

(** X14: a file of lines, one word a line, each starting and ending with a
    plain byte, with any white space before the first and after the last
    line, is read as exactly these words, and [LoadCodec] returns what
    [NewCodec] makes of them. *)
Theorem LoadCodec_wordlist
    {File : Type} (os : OS File) (unicode_trim : string -> string) (crc : ECC)
    (bank : string) (f : File) (lead trail : string) (ws : list string) :
  os_Open os ("wordlist/" +:+ bank +:+ ".txt") = Done f ->
  ioutil_ReadAll os f
  = Done (lead +:+ String.concat (String newline EmptyString) ws +:+ trail) ->
  all_space lead = true -> all_space trail = true ->
  ws ≠ [] -> Forall (fun w => solid w = true) ws ->
  loadBank os unicode_trim bank = Done ws
  ∧ LoadCodec os unicode_trim crc bank = Done (NewCodec crc ws).
Proof.
  intros Hopen Hread Hlead Htrail Hne Hws.
  rewrite (LoadCodec_read os unicode_trim crc bank f _ Hopen Hread).
  rewrite (loadBank_read os unicode_trim bank f _ Hopen Hread).
  by rewrite (solid_lines_read unicode_trim lead trail ws).
Qed.

Lemma LoadCodec_wordlist_sample :
  (os_Open (one_file "wordlist/english.txt"
              ("abandon" +:+ String newline "ability" +:+ String newline EmptyString))
     ("wordlist/" +:+ "english" +:+ ".txt") = Done tt
   ∧ ioutil_ReadAll (one_file "wordlist/english.txt"
                       ("abandon" +:+ String newline "ability" +:+ String newline EmptyString))
       tt
     = Done (EmptyString
             +:+ String.concat (String newline EmptyString) ["abandon"; "ability"]%string
             +:+ String newline EmptyString)
   ∧ all_space EmptyString = true ∧ all_space (String newline EmptyString) = true
   ∧ ["abandon"; "ability"]%string ≠ []
   ∧ Forall (fun w => solid w = true) ["abandon"; "ability"]%string)
  ∧ loadBank (one_file "wordlist/english.txt"
                ("abandon" +:+ String newline "ability" +:+ String newline EmptyString))
      (fun s => s) "english"
    = Done ["abandon"; "ability"]%string
  ∧ LoadCodec (one_file "wordlist/english.txt"
                 ("abandon" +:+ String newline "ability" +:+ String newline EmptyString))
      (fun s => s) Sample.sum_ecc "english"
    = Done (NewCodec Sample.sum_ecc ["abandon"; "ability"]%string).
Proof.
  assert (Hws : Forall (fun w => solid w = true) ["abandon"; "ability"]%string)
    by (repeat constructor).
  split.
  - split; [reflexivity |]. split; [reflexivity |].
    split; [reflexivity |]. split; [reflexivity |]. split; [discriminate | exact Hws].
  - apply (LoadCodec_wordlist _ _ _ "english" tt EmptyString (String newline EmptyString)).
    + reflexivity.
    + reflexivity.
    + reflexivity.
    + reflexivity.
    + discriminate.
    + exact Hws.
Defined.

Lemma concat_cons (sepstr x : string) (l : list string) :
  l ≠ [] -> String.concat sepstr (x :: l) = x +:+ (sepstr +:+ String.concat sepstr l).
Proof. by destruct l. Qed.

Lemma crlf_text (front : list string) (wn : string) :
  String.concat EmptyString
    (map (fun w => w +:+ String carriage_return (String newline EmptyString))
       (front ++ [wn]))
  = String.concat (String newline EmptyString)
      (map (fun w => w +:+ String carriage_return EmptyString) front ++ [wn])
    +:+ String carriage_return (String newline EmptyString).
Proof.
  induction front as [| w front IH]; [done |].
  cbn [map app].
  rewrite !concat_cons by (by destruct front).
  rewrite IH, !string_app_assoc. reflexivity.
Qed.

(** X15: in a file with CRLF line ends the carriage return stays at the end of
    every word but the last: only the line feed separates, and only the
    last carriage return is trimmed. *)
Theorem loadBank_crlf_lines
    {File : Type} (os : OS File) (unicode_trim : string -> string)
    (bank : string) (f : File) (front : list string) (wn : string) :
  os_Open os ("wordlist/" +:+ bank +:+ ".txt") = Done f ->
  ioutil_ReadAll os f
  = Done (String.concat EmptyString
            (map (fun w => w +:+ String carriage_return (String newline EmptyString))
               (front ++ [wn]))) ->
  Forall (fun w => solid w = true) (front ++ [wn]) ->
  loadBank os unicode_trim bank
  = Done (map (fun w => w +:+ String carriage_return EmptyString) front ++ [wn]).
Proof.
  intros Hopen Hread Hws.
  rewrite (loadBank_read os unicode_trim bank f _ Hopen Hread). f_equal.
  rewrite crlf_text.
  apply Forall_app in Hws as [Hfront Hwn]. apply Forall_cons in Hwn as [Hwn _].
  destruct (solid_inv wn Hwn) as ((a & Ha & Hpa) & (z & Hz & Hpz) & Hnl).
  assert (Hfirst : ∃ a', first_byte
                      (String.concat (String newline EmptyString)
                         (map (fun w => w +:+ String carriage_return EmptyString) front
                          ++ [wn])) = Some a' ∧ plain a' = true).
  { destruct front as [| w front']; [by exists a |].
    apply Forall_cons in Hfront as [Hw _].
    apply solid_inv in Hw as ((a' & Ha' & Hpa') & _). exists a'.
    split; [| done]. apply first_byte_concat. by apply first_byte_app. }
  destruct Hfirst as (a' & Ha' & Hpa').
  change (String.concat (String newline EmptyString) ?l +:+ ?t)
    with (EmptyString +:+ (String.concat (String newline EmptyString) l +:+ t)).
  apply (lines_of_wrapped_text unicode_trim EmptyString _ _ a' z); try done.
  - apply Forall_app. split; [| by repeat constructor].
    apply Forall_forall. intros v Hv.
    change (map ?g front) with (g <$> front) in Hv.
    apply list_elem_of_fmap in Hv as (w & -> & Hw).
    rewrite has_byte_app.
    apply (proj1 (Forall_forall _ _) Hfront) in Hw.
    apply solid_inv in Hw as (_ & _ & ->). done.
  - by apply last_byte_concat_snoc.
Qed.

Lemma loadBank_crlf_lines_sample :
  (os_Open (one_file "wordlist/english.txt"
              ("abandon" +:+ String carriage_return (String newline
               ("ability" +:+ String carriage_return (String newline EmptyString)))))
     ("wordlist/" +:+ "english" +:+ ".txt") = Done tt
   ∧ ioutil_ReadAll
       (one_file "wordlist/english.txt"
          ("abandon" +:+ String carriage_return (String newline
           ("ability" +:+ String carriage_return (String newline EmptyString)))))
       tt
     = Done (String.concat EmptyString
               (map (fun w => w +:+ String carriage_return (String newline EmptyString))
                  (["abandon"%string] ++ ["ability"%string])))
   ∧ Forall (fun w => solid w = true) (["abandon"%string] ++ ["ability"%string]))
  ∧ loadBank
      (one_file "wordlist/english.txt"
         ("abandon" +:+ String carriage_return (String newline
          ("ability" +:+ String carriage_return (String newline EmptyString)))))
      (fun s => s) "english"
    = Done (map (fun w => w +:+ String carriage_return EmptyString) ["abandon"%string]
            ++ ["ability"%string]).
Proof.
  assert (Hws : Forall (fun w => solid w = true)
                  (["abandon"%string] ++ ["ability"%string]))
    by (repeat constructor).
  split.
  - split; [reflexivity |]. split; [reflexivity | exact Hws].
  - apply (loadBank_crlf_lines _ _ "english" tt ["abandon"%string] "ability").
    + reflexivity.
    + reflexivity.
    + exact Hws.
Defined.

(** X16: a file of white space only is read as one empty word, so the bank
    size [LoadCodec] reports is 1. *)
Theorem LoadCodec_blank_file
    {File : Type} (os : OS File) (unicode_trim : string -> string) (crc : ECC)
    (bank : string) (f : File) (data : string) :
  os_Open os ("wordlist/" +:+ bank +:+ ".txt") = Done f ->
  ioutil_ReadAll os f = Done data ->
  all_space data = true ->
  loadBank os unicode_trim bank = Done [EmptyString]
  ∧ LoadCodec os unicode_trim crc bank = Done (Err (InvalidBankSize 2048 1)).
Proof.
  intros Hopen Hread Hblank.
  rewrite (LoadCodec_read os unicode_trim crc bank f _ Hopen Hread).
  rewrite (loadBank_read os unicode_trim bank f _ Hopen Hread).
  by rewrite TrimSpace_blank.
Qed.

Lemma LoadCodec_blank_file_sample :
  (os_Open (one_file "wordlist/english.txt" (String newline (String newline EmptyString)))
     ("wordlist/" +:+ "english" +:+ ".txt") = Done tt
   ∧ ioutil_ReadAll
       (one_file "wordlist/english.txt" (String newline (String newline EmptyString))) tt
     = Done (String newline (String newline EmptyString))
   ∧ all_space (String newline (String newline EmptyString)) = true)
  ∧ loadBank
      (one_file "wordlist/english.txt" (String newline (String newline EmptyString)))
      (fun s => s) "english"
    = Done [EmptyString]
  ∧ LoadCodec
      (one_file "wordlist/english.txt" (String newline (String newline EmptyString)))
      (fun s => s) Sample.sum_ecc "english"
    = Done (Err (InvalidBankSize 2048 1)).
Proof.
  split.
  - split; [reflexivity |]. split; reflexivity.
  - apply (LoadCodec_blank_file _ _ _ "english" tt
             (String newline (String newline EmptyString))); reflexivity.
Defined.

(** X17: the bank of a codec that [LoadCodec] returned is made of the 2048
    pieces between the line feeds of the trimmed file: joined by line
    feeds they give the trimmed text back, and none holds a line feed. *)
Theorem LoadCodec_Ok_bank
    {File : Type} (os : OS File) (unicode_trim : string -> string) (crc : ECC)
    (bank : string) (c : WordCodec) :
  LoadCodec os unicode_trim crc bank = Done (Ok c) ->
  ∃ f data,
    os_Open os ("wordlist/" +:+ bank +:+ ".txt") = Done f
    ∧ ioutil_ReadAll os f = Done data
    ∧ String.concat (String newline EmptyString) (words c) = TrimSpace unicode_trim data
    ∧ len (words c) = 2048
    ∧ Forall (fun w => has_byte newline w = false) (words c)
    ∧ bytes c = None ∧ check c = crc.
Proof.
  unfold LoadCodec, loadBank, getData.
  destruct (os_Open os ("wordlist/" +:+ bank +:+ ".txt")) as [f | err] eqn:Hopen;
    [| done].
  destruct (ioutil_ReadAll os f) as [data | err] eqn:Hread; [| done].
  intros [= Hnew]. apply NewCodec_Ok_inv in Hnew as (Hlen & Hwords & Hnil & Hcheck).
  exists f, data. rewrite Hwords.
  split; [done |]. split; [done |]. split; [apply concat_Split |].
  split; [done |]. split; [apply Split_pieces_without_sep | done].
Qed.

Lemma letter_plain (d : nat) :
  (d < 16)%nat ->
  plain (Sample.letter d) = true ∧ Ascii.eqb (Sample.letter d) newline = false.
Proof.
  intros Hd. do 16 (destruct d as [| d]; [by split |]). lia.
Qed.

Lemma sample_word_solid (i : nat) : (i < 2048)%nat -> solid (Sample.word_at i) = true.
Proof.
  intros Hi.
  assert (H2 : (i / 256 < 16)%nat) by (apply Nat.Div0.div_lt_upper_bound; lia).
  assert (H1 : (i / 16 mod 16 < 16)%nat) by (apply Nat.mod_upper_bound; lia).
  assert (H0 : (i mod 16 < 16)%nat) by (apply Nat.mod_upper_bound; lia).
  destruct (letter_plain _ H2) as [Hp2 Hn2].
  destruct (letter_plain _ H1) as [Hp1 Hn1].
  destruct (letter_plain _ H0) as [Hp0 Hn0].
  unfold solid, Sample.word_at. cbn [first_byte last_byte has_byte from_option].
  by rewrite Hp2, Hp0, Hn2, Hn1, Hn0.
Qed.

Lemma sample_bank_solid : Forall (fun w => solid w = true) Sample.bank.
Proof.
  apply Forall_forall. intros w Hw.
  apply list_elem_of_lookup in Hw as [i Hi].
  pose proof (lookup_lt_Some _ _ _ Hi) as Hlt.
  change (length Sample.bank) with 2048%nat in Hlt.
  rewrite sample_bank_lookup in Hi by done. injection Hi as <-.
  by apply sample_word_solid.
Qed.

Lemma LoadCodec_Ok_bank_sample :
  LoadCodec
    (one_file "wordlist/sample.txt"
       (String.concat (String newline EmptyString) Sample.bank +:+ String newline EmptyString))
    (fun s => s) Sample.sum_ecc "sample"
  = Done (Ok (Sample.codec Sample.sum_ecc))
  ∧ ∃ f data,
      os_Open
        (one_file "wordlist/sample.txt"
           (String.concat (String newline EmptyString) Sample.bank
            +:+ String newline EmptyString))
        ("wordlist/" +:+ "sample" +:+ ".txt") = Done f
      ∧ ioutil_ReadAll
          (one_file "wordlist/sample.txt"
             (String.concat (String newline EmptyString) Sample.bank
              +:+ String newline EmptyString)) f
        = Done data
      ∧ String.concat (String newline EmptyString) (words (Sample.codec Sample.sum_ecc))
        = TrimSpace (fun s => s) data
      ∧ len (words (Sample.codec Sample.sum_ecc)) = 2048
      ∧ Forall (fun w => has_byte newline w = false) (words (Sample.codec Sample.sum_ecc))
      ∧ bytes (Sample.codec Sample.sum_ecc) = None
      ∧ check (Sample.codec Sample.sum_ecc) = Sample.sum_ecc.
Proof.
  assert (Hload : LoadCodec
            (one_file "wordlist/sample.txt"
               (String.concat (String newline EmptyString) Sample.bank
                +:+ String newline EmptyString))
            (fun s => s) Sample.sum_ecc "sample"
          = Done (Ok (Sample.codec Sample.sum_ecc))).
  { rewrite (LoadCodec_read _ (fun s => s) Sample.sum_ecc "sample" tt
               (EmptyString +:+ String.concat (String newline EmptyString) Sample.bank
                +:+ String newline EmptyString)) by reflexivity.
    rewrite solid_lines_read;
      [reflexivity | reflexivity | reflexivity | discriminate | apply sample_bank_solid]. }
  split; [exact Hload |].
  apply (LoadCodec_Ok_bank _ _ _ _ _ Hload).
Defined.

